(** * SoundScript Unicode: a shallow embedding of [soundscript_unicode.py]

    The codec of class [SoundScriptUnicode] turns a byte buffer into a Python
    [str] whose characters are 12-bit values placed in the Unicode Private Use
    Area, with run tokens for repeated bytes and a small frame (format tag,
    four size characters, end marker) around the payload.

    Conventions of the embedding:
    - a Python [str] is the list of its code points ([list Z]); a [bytes]
      object is a [list byte]; a Python [int] is a [Z]; cursors and lengths
      are [nat];
    - a raised exception is a value [Err e] of the result type [res];
    - every [while] loop is a [Fixpoint] on a fuel argument, and the lemmas
      below show that the fuel handed over by the callers is never used up;
    - [encode_file] and [decode_string] are the methods of an instance made
      with [verbose=False], which prints nothing, called with a size that
      [f.read] accepts; module [Effects] has the same two methods with the
      warning printed in verbose mode and with the sizes [f.read] rejects. *)

From Stdlib Require Import ZArith Lia List Bool.
From Stdlib Require Import Strings.String Strings.Byte.
From stdpp Require Import base option list gmap strings.

Local Open Scope Z_scope.

(** ** Exceptions and the result monad *)

Module Py.

(** The exceptions the codec can raise.  Down to [BytesNotInRange] they are
    [ValueError]s in the source, told apart here by the place that raises
    them; so is [NegativeReadLength]. *)
Inductive exn : Type :=
| ValueOutOfRange (value : Z)        (* _int_to_unicode: "Value out of range" *)
| ChrArgNotInRange (code : Z)        (* chr(): arg not in range(0x110000) *)
| OutsidePrivateUse (code : Z)       (* _unicode_to_int: "Character outside Private Use Area" *)
| EmptyEncodedString                 (* decode_string: "Empty encoded string" *)
| EncodedDataTooShort                (* decode_string: "Encoded data too short" *)
| InvalidSizeHeaderChar (char : Z)   (* decode_string: "Invalid size header character" *)
| BytesNotInRange (value : Z)        (* bytes(): "bytes must be in range(0, 256)" *)
| IndexError                         (* subscript out of range *)
| FileNotFoundError                  (* encode_file: "File not found" *)
| LoopFuelExhausted                  (* not a Python exception: a loop model ran out of fuel *)
| NegativeReadLength                 (* f.read: "read length must be non-negative or -1" *)
| OverflowError                      (* f.read: "cannot fit 'int' into an index-sized integer" *)
| UnicodeEncodeError.                (* print: the stream cannot encode a character *)

Inductive res (A : Type) : Type :=
| Ok (a : A)
| Err (e : exn).
Arguments Ok {A} a.
Arguments Err {A} e.

Definition bind {A B : Type} (m : res A) (k : A -> res B) : res B :=
  match m with
  | Ok a => k a
  | Err e => Err e
  end.

(** [str] is a sequence of code points. *)
Definition str : Type := list Z.

(** [chr(code)] *)
Definition chr (code : Z) : res Z :=
  if (0 <=? code) && (code <? 0x110000) then Ok code else Err (ChrArgNotInRange code).

(** [ord(char)] for a one-character string *)
Definition ord (char : Z) : Z := char.

(** [seq[i]] *)
Definition getitem {A : Type} (l : list A) (i : nat) : res A :=
  match l !! i with
  | Some x => Ok x
  | None => Err IndexError
  end.

(** the [int] a [bytes] object yields when subscripted *)
Definition int_of_byte (b : byte) : Z := Z.of_N (Byte.to_N b).

(** [bytes(list_of_ints)] *)
Fixpoint bytes_of_ints (l : list Z) : res (list byte) :=
  match l with
  | [] => Ok []
  | v :: l' =>
      match (if 0 <=? v then Byte.of_N (Z.to_N v) else None) with
      | Some b => bind (bytes_of_ints l') (fun bs => Ok (b :: bs))
      | None => Err (BytesNotInRange v)
      end
  end.

End Py.
Import Py.

Notation "'do' x <- m ; k" := (bind m (fun x => k))
  (at level 10, x name, m at level 100, k at level 200,
   format "'[v' 'do'  x  <-  m ; '/' k ']'").
Notation "'do' ' pat <- m ; k" := (bind m (fun x => match x with pat => k end))
  (at level 10, pat pattern, m at level 100, k at level 200,
   format "'[v' 'do'  ' pat  <-  m ; '/' k ']'").

(** ** Class attributes of [SoundScriptUnicode] *)

(** The entries of the [FORMAT_MAP] literal, in source order.  Every value is
    the code-point sequence of the emoji written in the source; several of
    them carry the variation selector U+FE0F and so are two characters long.
    The keys are pairwise distinct, so [FORMAT_MAP.items()] yields these
    pairs in this order. *)
Definition FORMAT_ITEMS : list (string * str) :=
  [ (* Audio *)
    (".mp3", [0x1F3B5]); (".wav", [0x1F30A]); (".flac", [0x1F48E]); (".aac", [0x1F34E]);
    (".ogg", [0x1F3A7]); (".m4a", [0x1F4F1]); (".aiff", [0x1F3B9]); (".wma", [0x1FA9F]);
    (".opus", [0x1F3AA]); (".alac", [0x1F34F]);
    (* Video *)
    (".mp4", [0x1F3AC]); (".avi", [0x1F39E; 0xFE0F]); (".mkv", [0x1F4F9]); (".mov", [0x1F3A5]);
    (".wmv", [0x1F3A6]); (".flv", [0x1F4FA]); (".webm", [0x1F310]); (".m4v", [0x1F4FC]);
    (* Images *)
    (".jpg", [0x1F5BC; 0xFE0F]); (".jpeg", [0x1F5BC; 0xFE0F]); (".png", [0x1F3A8]); (".gif", [0x1F3AD]);
    (".bmp", [0x1F3DE; 0xFE0F]); (".svg", [0x270F; 0xFE0F]); (".webp", [0x1F308]); (".ico", [0x1F537]);
    (".tiff", [0x1F4F8]);
    (* Documents *)
    (".pdf", [0x1F4D5]); (".doc", [0x1F4D8]); (".docx", [0x1F4D7]); (".txt", [0x1F4C4]);
    (".rtf", [0x1F4C3]); (".odt", [0x1F4CB]);
    (* Presentations *)
    (".ppt", [0x1F4CA]); (".pptx", [0x1F4C8]); (".odp", [0x1F4C9]); (".key", [0x1F3AF]);
    (* Spreadsheets *)
    (".xls", [0x1F4CA]); (".xlsx", [0x1F4D1]); (".csv", [0x1F4DD]); (".ods", [0x1F4D0]);
    (* Archives *)
    (".zip", [0x1F5DC; 0xFE0F]); (".rar", [0x1F4E6]); (".7z", [0x1F381]); (".tar", [0x1F4EE]);
    (".gz", [0x1F4A8]); (".bz2", [0x1F32C; 0xFE0F]); (".xz", [0x26A1]);
    (* Programming *)
    (".py", [0x1F40D]); (".js", [0x1F4DC]); (".java", [0x2615]); (".c", [0x2699; 0xFE0F]);
    (".cpp", [0x1F527]); (".cs", [0x1F3AE]); (".html", [0x1F310]); (".css", [0x1F3A8]);
    (".php", [0x1F418]); (".rb", [0x1F48E]); (".go", [0x1F439]); (".rs", [0x1F980]);
    (".swift", [0x1F54A; 0xFE0F]); (".kt", [0x1F3AF]); (".ts", [0x1F4D8]);
    (* Data *)
    (".json", [0x1F4CA]); (".xml", [0x1F4CB]); (".yaml", [0x2699; 0xFE0F]); (".yml", [0x2699; 0xFE0F]);
    (".toml", [0x1F527]); (".ini", [0x26A1]); (".cfg", [0x1F6E0; 0xFE0F]);
    (* Executables *)
    (".exe", [0x2699; 0xFE0F]); (".dll", [0x1F517]); (".so", [0x1F50C]); (".app", [0x1F4F1]);
    (".dmg", [0x1F4BF]); (".iso", [0x1F4BD]);
    (* Other *)
    (".md", [0x1F4DD]); (".log", [0x1F4DC]); (".bin", [0x1F522]); (".dat", [0x1F4BE]);
    (".db", [0x1F5C4; 0xFE0F]); (".sql", [0x1F5C3; 0xFE0F]); (".sqlite", [0x1F4BD]);
    (* Generic *)
    ("", [0x1F4E6]); (".unknown", [0x2753]) ]%string.

(** A dict built by assigning the pairs one after the other: a later pair
    with the same key overwrites the earlier one. *)
Definition dict_of_items {K V : Type} `{Countable K} (items : list (K * V)) : gmap K V :=
  foldl (fun d kv => <[kv.1 := kv.2]> d) ∅ items.

Definition FORMAT_MAP : gmap string str := dict_of_items FORMAT_ITEMS.

(** [{v: k for k, v in FORMAT_MAP.items()}] *)
Definition REVERSE_FORMAT_MAP : gmap str string :=
  dict_of_items (map (fun kv => (kv.2, kv.1)) FORMAT_ITEMS).

#[global] Arguments FORMAT_MAP : simpl never.
#[global] Arguments REVERSE_FORMAT_MAP : simpl never.

Definition PRIVATE_USE_START : Z := 0xE000.
Definition PRIVATE_USE_END : Z := 0xF8FF.
Definition CHARSET_SIZE : Z := PRIVATE_USE_END - PRIVATE_USE_START + 1.

(** [SPECIAL_CHARS]; each value is one code point. *)
Definition zero_run : Z := 0x26AB.
Definition one_run : Z := 0x26AA.
Definition repeat_2 : Z := 0x1F501.
Definition escape : Z := 0x1F6AA.
Definition end_marker : Z := 0x1F3C1.

Definition SPECIAL_CHARS : list (string * Z) :=
  [ ("zero_run", zero_run); ("one_run", one_run); ("repeat_2", repeat_2);
    ("escape", escape); ("end_marker", end_marker) ]%string.

(** Instance attributes set by [__init__]:
    [math.floor(math.log2(CHARSET_SIZE))] and [2 ** bits_per_char]. *)
Definition bits_per_char : Z := Z.log2 CHARSET_SIZE.
Definition values_per_char : Z := 2 ^ bits_per_char.

(** ** The symbol alphabet *)

Definition _int_to_unicode (value : Z) : res Z :=
  if values_per_char <=? value then Err (ValueOutOfRange value)
  else chr (PRIVATE_USE_START + value).

Definition _unicode_to_int (char : Z) : res Z :=
  let code := ord char in
  if (code <? PRIVATE_USE_START) || (PRIVATE_USE_END <? code)
  then Err (OutsidePrivateUse code)
  else Ok (code - PRIVATE_USE_START).

(** ** The encoder: [_encode_bytes] *)

(** [seq[a:b]] for [0 <= a <= b] *)
Definition slice {A : Type} (l : list A) (a b : nat) : list A :=
  take (b - a) (drop a l).

(** [==] on [bytes] objects *)
Fixpoint bytes_eqb (x y : list byte) : bool :=
  match x, y with
  | [], [] => true
  | a :: x', b :: y' => Byte.eqb a b && bytes_eqb x' y'
  | _, _ => false
  end.

(** [data[i]] as a Python [int] *)
Definition data_at (data : list byte) (i : nat) : res Z :=
  do b <- getitem data i; Ok (int_of_byte b).

(** The guard of the counting loops of the two run branches,
    [i + count < len(data) and data[i + count] == target and count < 4096];
    [and] does not evaluate the subscript once the first test fails. *)
Definition run_continues (data : list byte) (i : nat) (target : Z) (count : nat) : bool :=
  (i + count <? length data)%nat
  && match data !! (i + count)%nat with
     | Some b => int_of_byte b =? target
     | None => false
     end
  && (count <? 4096)%nat.

(** [while <guard>: count += 1] *)
Fixpoint run_loop (fuel : nat) (data : list byte) (i : nat) (target : Z) (count : nat)
  : res nat :=
  if run_continues data i target count then
    match fuel with
    | O => Err LoopFuelExhausted
    | S fuel' => run_loop fuel' data i target (count + 1)
    end
  else Ok count.

(** One run branch of the loop body.  The source writes it out twice, once
    for [0x00] with marker [zero_run] and once for [0xFF] with marker
    [one_run]; [None] means that the branch falls through. *)
Definition run_branch (data : list byte) (i : nat) (byte_val target marker : Z)
  : res (option (str * nat)) :=
  if byte_val =? target then
    do count <- run_loop 4096 data i target 1;
    if (4 <=? count)%nat then
      do c <- _int_to_unicode (Z.min (Z.of_nat count) (values_per_char - 1));
      Ok (Some ([marker; c], (i + count)%nat))
    else Ok None
  else Ok None.

(** [while j + 1 < len(data) and data[j:j+2] == pattern_2 and repeat_count < 256:
       repeat_count += 1; j += 2] *)
Fixpoint pattern_loop (fuel : nat) (data pattern_2 : list byte) (repeat_count j : nat)
  : res (nat * nat) :=
  if (j + 1 <? length data)%nat
     && bytes_eqb (slice data j (j + 2)) pattern_2
     && (repeat_count <? 256)%nat
  then
    match fuel with
    | O => Err LoopFuelExhausted
    | S fuel' => pattern_loop fuel' data pattern_2 (repeat_count + 1) (j + 2)
    end
  else Ok (repeat_count, j).

(** The 2-byte pattern branch. *)
Definition pattern_branch (data : list byte) (i : nat) : res (option (str * nat)) :=
  if (i + 3 <? length data)%nat then
    let pattern_2 := slice data i (i + 2) in
    if bytes_eqb (slice data (i + 2) (i + 4)) pattern_2 then
      do '(repeat_count, j) <- pattern_loop 256 data pattern_2 2 (i + 4);
      if (3 <=? repeat_count)%nat then
        do p0 <- data_at pattern_2 0;
        do p1 <- data_at pattern_2 1;
        let pattern_val := Z.lor (Z.shiftl p0 8) p1 in
        do hi <- _int_to_unicode (Z.shiftr pattern_val bits_per_char);
        do lo <- _int_to_unicode (Z.land pattern_val (Z.shiftl 1 bits_per_char - 1));
        do c <- _int_to_unicode (Z.of_nat repeat_count);
        Ok (Some ([repeat_2; hi; lo; c], (i + repeat_count * 2)%nat))
      else Ok None
    else Ok None
  else Ok None.

(** The standard 12-bit branch: three bytes become two characters, with the
    two trailing cases. *)
Definition standard_branch (data : list byte) (i : nat) : res (str * nat) :=
  if (i + 1 <? length data)%nat then
    do byte1 <- data_at data i;
    do byte2 <- data_at data (i + 1);
    let value_12bit := Z.land (Z.lor (Z.shiftl byte1 4) (Z.shiftr byte2 4)) 0xFFF in
    do s1 <- _int_to_unicode value_12bit;
    if (i + 2 <? length data)%nat then
      do byte3 <- data_at data (i + 2);
      let value_12bit_2 := Z.lor (Z.shiftl (Z.land byte2 0x0F) 8) byte3 in
      do s2 <- _int_to_unicode value_12bit_2;
      Ok ([s1; s2], (i + 3)%nat)
    else
      let value_12bit_2 := Z.shiftl (Z.land byte2 0x0F) 8 in
      do s2 <- _int_to_unicode value_12bit_2;
      Ok ([s1; s2], (i + 2)%nat)
  else
    do byte1 <- data_at data i;
    let value_12bit := Z.shiftl byte1 4 in
    do s1 <- _int_to_unicode value_12bit;
    Ok ([s1], (i + 1)%nat).

(** One pass through the body of [while i < len(data)]: the characters
    appended to [result] and the new cursor. *)
Definition encode_step (data : list byte) (i : nat) : res (str * nat) :=
  do byte_val <- data_at data i;
  do z <- run_branch data i byte_val 0x00 zero_run;
  match z with
  | Some r => Ok r
  | None =>
      do o <- run_branch data i byte_val 0xFF one_run;
      match o with
      | Some r => Ok r
      | None =>
          do p <- pattern_branch data i;
          match p with
          | Some r => Ok r
          | None => standard_branch data i
          end
      end
  end.

Fixpoint encode_loop (fuel : nat) (data : list byte) (i : nat) (result : str) : res str :=
  if (i <? length data)%nat then
    match fuel with
    | O => Err LoopFuelExhausted
    | S fuel' =>
        do '(out, i') <- encode_step data i;
        encode_loop fuel' data i' (result ++ out)
    end
  else Ok result.

Definition _encode_bytes (data : list byte) : res str :=
  encode_loop (length data) data 0 [].

(** ** The container: [encode_file] *)

(** What [encode_file] observes of its [filepath] argument: whether the path
    exists, [filepath.suffix.lower()], and the bytes of the file. *)
Record path : Type := Path {
  path_exists : bool;
  path_suffix_lower : string;
  path_contents : list byte
}.

(** The bytes that [f.read(max_bytes) if max_bytes else f.read()] returns
    when [f.read] accepts the size: [None] and [0] are falsy, and the size
    [-1] reads up to the end of the file.  The sizes [f.read] rejects are in
    [Effects.read]. *)
Definition read_file (contents : list byte) (max_bytes : option Z) : list byte :=
  match max_bytes with
  | None => contents
  | Some n => if n <=? 0 then contents else take (Z.to_nat n) contents
  end.

(** The integer and string entries of the statistics dict; the two
    floating-point ratios are not modelled. *)
Record stats : Type := Stats {
  original_bytes : nat;
  encoded_chars : nat;
  stats_bits_per_char : Z;
  format : string;
  format_emoji : str
}.

(** [for _ in range(4): size_chars.append(...); byte_count >>= 12] *)
Fixpoint size_loop (n : nat) (byte_count : Z) (size_chars : str) : res str :=
  match n with
  | O => Ok size_chars
  | S n' =>
      do c <- _int_to_unicode (Z.land byte_count 0xFFF);
      size_loop n' (Z.shiftr byte_count 12) (size_chars ++ [c])
  end.

Definition size_header_of (byte_count : Z) : res str :=
  do size_chars <- size_loop 4 byte_count [];
  Ok (reverse size_chars).

Definition generic_format_char : str := default [0x1F4E6] (FORMAT_MAP !! ""%string).

Definition encode_file (filepath : path) (max_bytes : option Z) : res (str * stats) :=
  if negb (path_exists filepath) then Err FileNotFoundError else
  let ext := path_suffix_lower filepath in
  let '(format_char, actual_ext) :=
    match FORMAT_MAP !! ext with
    | None => (generic_format_char, if String.eqb ext "" then ".unknown"%string else ext)
    | Some c => (c, ext)
    end in
  let data := read_file (path_contents filepath) max_bytes in
  do encoded_data <- _encode_bytes data;
  do size_header <- size_header_of (Z.of_nat (length data));
  let result := format_char ++ size_header ++ encoded_data ++ [end_marker] in
  Ok (result,
      {| original_bytes := length data;
         encoded_chars := length result;
         stats_bits_per_char := bits_per_char;
         format := actual_ext;
         format_emoji := format_char |}).

(** ** The decoder: [_decode_to_bytes] and [decode_string] *)

Record dstate : Type := DState {
  result : list Z;
  bit_buffer : Z;
  bit_count : Z
}.

(** [while bit_count >= 8: ...] of the standard-character case *)
Fixpoint extract_loop (fuel : nat) (st : dstate) : res dstate :=
  if 8 <=? bit_count st then
    match fuel with
    | O => Err LoopFuelExhausted
    | S fuel' =>
        let bit_count' := bit_count st - 8 in
        let byte_val := Z.land (Z.shiftr (bit_buffer st) bit_count') 0xFF in
        extract_loop fuel'
          {| result := result st ++ [byte_val];
             bit_buffer := Z.land (bit_buffer st) (Z.shiftl 1 bit_count' - 1);
             bit_count := bit_count' |}
    end
  else Ok st.

(** The two run cases of the decoder ([fill] is [0x00] or [0xFF]); the
    cursor has already moved past the marker. *)
Definition decode_run (encoded : str) (i : nat) (fill : Z) (st : dstate)
  : res (nat * dstate) :=
  if (i <? length encoded)%nat then
    do e <- getitem encoded i;
    do count <- _unicode_to_int e;
    Ok ((i + 1)%nat,
        {| result := result st ++ replicate (Z.to_nat count) fill;
           bit_buffer := bit_buffer st; bit_count := bit_count st |})
  else Ok (i, st).

Definition decode_repeat (encoded : str) (i : nat) (st : dstate) : res (nat * dstate) :=
  if (i + 2 <? length encoded)%nat then
    do e0 <- getitem encoded i;
    do high <- _unicode_to_int e0;
    do e1 <- getitem encoded (i + 1);
    do low <- _unicode_to_int e1;
    let pattern_val := Z.lor (Z.shiftl high bits_per_char) low in
    let byte1 := Z.land (Z.shiftr pattern_val 8) 0xFF in
    let byte2 := Z.land pattern_val 0xFF in
    do e2 <- getitem encoded (i + 2);
    do count <- _unicode_to_int e2;
    Ok ((i + 3)%nat,
        {| result := result st ++ concat (replicate (Z.to_nat count) [byte1; byte2]);
           bit_buffer := bit_buffer st; bit_count := bit_count st |})
  else Ok (i, st).

(** The standard-character case with its [try ... except ValueError: pass]. *)
Definition decode_standard (char : Z) (st : dstate) : res dstate :=
  match _unicode_to_int char with
  | Ok value =>
      let bit_buffer' := Z.lor (Z.shiftl (bit_buffer st) bits_per_char) value in
      let bit_count' := bit_count st + bits_per_char in
      extract_loop (Z.to_nat bit_count')
        {| result := result st; bit_buffer := bit_buffer'; bit_count := bit_count' |}
  | Err _ => Ok st
  end.

(** One pass through the body of [while i < len(encoded)]. *)
Definition decode_step (encoded : str) (i : nat) (st : dstate) : res (nat * dstate) :=
  do char <- getitem encoded i;
  if char =? zero_run then decode_run encoded (i + 1) 0x00 st
  else if char =? one_run then decode_run encoded (i + 1) 0xFF st
  else if char =? repeat_2 then decode_repeat encoded (i + 1) st
  else
    do st' <- decode_standard char st;
    Ok ((i + 1)%nat, st').

Fixpoint decode_loop (fuel : nat) (encoded : str) (i : nat) (st : dstate) : res dstate :=
  if (i <? length encoded)%nat then
    match fuel with
    | O => Err LoopFuelExhausted
    | S fuel' =>
        do '(i', st') <- decode_step encoded i st;
        decode_loop fuel' encoded i' st'
    end
  else Ok st.

Definition _decode_to_bytes (encoded : str) : res (list byte) :=
  do st <- decode_loop (length encoded) encoded 0
             {| result := []; bit_buffer := 0; bit_count := 0 |};
  bytes_of_ints (result st).

(** [for char in size_header: ...], with the [ValueError] of
    [_unicode_to_int] caught and raised again under another message *)
Fixpoint size_header_loop (size_header : str) (original_size : Z) : res Z :=
  match size_header with
  | [] => Ok original_size
  | char :: rest =>
      match _unicode_to_int char with
      | Ok val => size_header_loop rest (Z.lor (Z.shiftl original_size 12) val)
      | Err _ => Err (InvalidSizeHeaderChar char)
      end
  end.

(** [s.endswith(c)] for a one-character [c] *)
Definition endswith (s : str) (c : Z) : bool :=
  match last s with
  | Some x => x =? c
  | None => false
  end.

Definition decode_string (encoded : str) : res (list byte * string) :=
  match encoded with
  | [] => Err EmptyEncodedString
  | format_char :: _ =>
      let file_format :=
        match REVERSE_FORMAT_MAP !! [format_char] with
        | None => ".bin"%string
        | Some ext => ext
        end in
      if (length encoded <? 6)%nat then Err EncodedDataTooShort else
      let size_header := slice encoded 1 5 in
      do original_size <- size_header_loop size_header 0;
      let data_part := drop 5 encoded in
      let data_part :=
        if endswith data_part end_marker
        then take (length data_part - 1) data_part
        else data_part in
      do decoded_bytes <- _decode_to_bytes data_part;
      let decoded_bytes :=
        if Z.of_nat (length decoded_bytes) >? original_size
        then take (Z.to_nat original_size) decoded_bytes
        else decoded_bytes in
      Ok (decoded_bytes, file_format)
  end.

(** The core API of the specification: encode a buffer under an extension. *)
Definition encode (b : list byte) (e : string) : res str :=
  do '(s, _) <- encode_file (Path true e b) None;
  Ok s.


(** ** [encode_file] and [decode_string] with their effects

    The two methods whole: in verbose mode a warning is printed for an
    unregistered extension or an unknown tag, and [print] may raise;
    [f.read] raises on the sizes it does not accept.  [print] on
    [sys.stdout] is a parameter: it returns or raises, depending on the
    stream. *)
Module Effects.

(** [sys.maxsize] of a 64-bit build, the largest [Py_ssize_t]. *)
Definition PY_SSIZE_T_MAX : Z := 2 ^ 63 - 1.

(** The code points of an ASCII literal. *)
Definition str_of_string (s : string) : str :=
  map (fun a => Z.of_N (Ascii.N_of_ascii a)) (list_ascii_of_string s).

(** [f.read(size)] on a file opened with ['rb'], read from its start: a size
    that is no [Py_ssize_t] raises [OverflowError], a size below [-1] raises
    [ValueError], [None] and [-1] read up to the end of the file.  (Memory is
    not bounded in the model.) *)
Definition read (contents : list byte) (size : option Z) : res (list byte) :=
  match size with
  | None => Ok contents
  | Some n =>
      if (n <? - PY_SSIZE_T_MAX - 1) || (PY_SSIZE_T_MAX <? n) then Err OverflowError
      else if n <? -1 then Err NegativeReadLength
      else if n =? -1 then Ok contents
      else Ok (take (Z.to_nat n) contents)
  end.

(** [f"Warning: Unregistered extension '{ext}', using generic format"] *)
Definition unregistered_extension_message (ext : string) : str :=
  str_of_string "Warning: Unregistered extension '" ++ str_of_string ext
  ++ str_of_string "', using generic format".

(** [f"Warning: Unknown format identifier '{format_char}', using generic"] *)
Definition unknown_format_message (format_char : Z) : str :=
  str_of_string "Warning: Unknown format identifier '" ++ [format_char]
  ++ str_of_string "', using generic".

Section Stdout.

Variable verbose : bool.
Variable print : str -> res unit.

(** [if self.verbose: print(message)] *)
Definition warn (message : str) : res unit :=
  if verbose then print message else Ok tt.

Definition encode_file (filepath : path) (max_bytes : option Z) : res (str * stats) :=
  if negb (path_exists filepath) then Err FileNotFoundError else
  let ext := path_suffix_lower filepath in
  do '(format_char, actual_ext) <-
    match FORMAT_MAP !! ext with
    | None =>
        do u <- warn (unregistered_extension_message ext);
        Ok (generic_format_char, if String.eqb ext "" then ".unknown"%string else ext)
    | Some c => Ok (c, ext)
    end;
  do data <-
    match max_bytes with
    | Some n => if n =? 0 then read (path_contents filepath) None
                else read (path_contents filepath) (Some n)
    | None => read (path_contents filepath) None
    end;
  do encoded_data <- _encode_bytes data;
  do size_header <- size_header_of (Z.of_nat (length data));
  let result := format_char ++ size_header ++ encoded_data ++ [end_marker] in
  Ok (result,
      {| original_bytes := length data;
         encoded_chars := length result;
         stats_bits_per_char := bits_per_char;
         format := actual_ext;
         format_emoji := format_char |}).

Definition decode_string (encoded : str) : res (list byte * string) :=
  match encoded with
  | [] => Err EmptyEncodedString
  | format_char :: _ =>
      do file_format <-
        match REVERSE_FORMAT_MAP !! [format_char] with
        | None =>
            do u <- warn (unknown_format_message format_char);
            Ok ".bin"%string
        | Some ext => Ok ext
        end;
      if (length encoded <? 6)%nat then Err EncodedDataTooShort else
      let size_header := slice encoded 1 5 in
      do original_size <- size_header_loop size_header 0;
      let data_part := drop 5 encoded in
      let data_part :=
        if endswith data_part end_marker
        then take (length data_part - 1) data_part
        else data_part in
      do decoded_bytes <- _decode_to_bytes data_part;
      let decoded_bytes :=
        if Z.of_nat (length decoded_bytes) >? original_size
        then take (Z.to_nat original_size) decoded_bytes
        else decoded_bytes in
      Ok (decoded_bytes, file_format)
  end.

End Stdout.

End Effects.

(** [print] on a stream whose encoding is UTF-8 with strict error handling:
    every character can be written but the surrogates U+D800..U+DFFF. *)
Definition utf8_print (message : str) : res unit :=
  if forallb (fun c => negb ((0xD800 <=? c) && (c <=? 0xDFFF))) message
  then Ok tt else Err UnicodeEncodeError.

(** ** Predicates used in the statements *)

(** A list of Python ints that [bytes()] accepts. *)
Definition bytes_ok (l : list Z) : Prop := Forall (fun v => 0 <= v < 256) l.

(** The errors [_decode_to_bytes] lets escape: the [ValueError] of
    [_unicode_to_int] on the operand of a run or pattern marker. *)
Definition operand_error (e : exn) : Prop :=
  exists code, e = OutsidePrivateUse code.

(** The value a dict built from [items] holds for [k]: the one of the last
    pair with that key. *)
Fixpoint last_value {K V : Type} `{EqDecision K} (k : K) (items : list (K * V)) : option V :=
  match items with
  | [] => None
  | (k', v) :: rest =>
      match last_value k rest with
      | Some v' => Some v'
      | None => if decide (k' = k) then Some v else None
      end
  end.

(** The pairs the dict comprehension of [REVERSE_FORMAT_MAP] runs through. *)
Definition REVERSE_ITEMS : list (str * string) :=
  map (fun kv => (kv.2, kv.1)) FORMAT_ITEMS.

(** The format character [encode_file] writes for an extension, and the
    extension [decode_string] reads back from a one-character tag. *)
Definition lookup_tag (ext : string) : str :=
  default generic_format_char (FORMAT_MAP !! ext).

Definition lookup_extension (format_char : Z) : string :=
  default ".bin"%string (REVERSE_FORMAT_MAP !! [format_char]).

(** The number of bytes equal to [tb] at the head of [l], and the length of
    the longest run of [tb] anywhere in [l]. *)
Fixpoint leading (tb : byte) (l : list byte) : nat :=
  match l with
  | b :: rest => if Byte.eqb b tb then S (leading tb rest) else O
  | [] => O
  end.

Fixpoint max_run (tb : byte) (l : list byte) : nat :=
  match l with
  | [] => O
  | _ :: rest => Nat.max (leading tb l) (max_run tb rest)
  end.

(** The characters of a pattern token: the marker, the 16-bit motif split
    into its top 4 and low 12 bits, and the repetition count. *)
Definition pattern_token (p0 p1 : byte) (rc : nat) : str :=
  let pattern_val := int_of_byte p0 * 256 + int_of_byte p1 in
  [ repeat_2;
    PRIVATE_USE_START + pattern_val / 4096;
    PRIVATE_USE_START + pattern_val mod 4096;
    PRIVATE_USE_START + Z.of_nat rc ].

(** The characters of the standard branch for a full group of three bytes
    and for the two trailing cases. *)
Definition group3 (b1 b2 b3 : byte) : str :=
  [ PRIVATE_USE_START + (int_of_byte b1 * 16 + int_of_byte b2 / 16);
    PRIVATE_USE_START + ((int_of_byte b2 mod 16) * 256 + int_of_byte b3) ].

Definition tail2 (b1 b2 : byte) : str :=
  [ PRIVATE_USE_START + (int_of_byte b1 * 16 + int_of_byte b2 / 16);
    PRIVATE_USE_START + (int_of_byte b2 mod 16) * 256 ].

Definition tail1 (b1 : byte) : str :=
  [ PRIVATE_USE_START + int_of_byte b1 * 16 ].

(** What one pass of the encoding loop emits.  [TRun ones c] is a run token
    for [c] counted bytes ([0xFF] when [ones], else [0x00]); the last two
    tokens only occur at the end of the data. *)
Inductive token : Type :=
| TRun (ones : bool) (c : nat)
| TPattern (p0 p1 : byte) (rc : nat)
| TGroup3 (b1 b2 b3 : byte)
| TTail2 (b1 b2 : byte)
| TTail1 (b1 : byte).

Definition fill_byte (ones : bool) : byte := if ones then xff else x00.
Definition run_marker (ones : bool) : Z := if ones then one_run else zero_run.

(** The count a run token stores: the counted length, clamped. *)
Definition stored_count (c : nat) : Z := Z.min (Z.of_nat c) 4095.

(** The characters of a token. *)
Definition token_chars (t : token) : str :=
  match t with
  | TRun ones c => [run_marker ones; PRIVATE_USE_START + stored_count c]
  | TPattern p0 p1 rc => pattern_token p0 p1 rc
  | TGroup3 b1 b2 b3 => group3 b1 b2 b3
  | TTail2 b1 b2 => tail2 b1 b2
  | TTail1 b1 => tail1 b1
  end.

(** The bytes of the data a token stands for; the cursor moves by their
    number. *)
Definition token_source (t : token) : list byte :=
  match t with
  | TRun ones c => replicate c (fill_byte ones)
  | TPattern p0 p1 rc => concat (replicate rc [p0; p1])
  | TGroup3 b1 b2 b3 => [b1; b2; b3]
  | TTail2 b1 b2 => [b1; b2]
  | TTail1 b1 => [b1]
  end.

(** The ints the decoder appends to [result] when it reads the token with
    an empty bit buffer. *)
Definition token_decoded (t : token) : list Z :=
  match t with
  | TRun ones c => replicate (Z.to_nat (stored_count c)) (int_of_byte (fill_byte ones))
  | TPattern p0 p1 rc => concat (replicate rc [int_of_byte p0; int_of_byte p1])
  | TGroup3 b1 b2 b3 => [int_of_byte b1; int_of_byte b2; int_of_byte b3]
  | TTail2 b1 b2 => [int_of_byte b1; int_of_byte b2; 0]
  | TTail1 b1 => [int_of_byte b1]
  end.

(** Tokens after which the encoding loop has reached the end of the data. *)
Definition terminal (t : token) : bool :=
  match t with
  | TTail2 _ _ | TTail1 _ => true
  | _ => false
  end.

(** Side conditions on the token emitted at cursor [i]. *)
Definition token_at (data : list byte) (i : nat) (t : token) : Prop :=
  take (length (token_source t)) (drop i data) = token_source t
  /\ match t with
     | TRun ones c =>
         (4 <= c <= 4096)%nat /\ c = Nat.min (leading (fill_byte ones) (drop i data)) 4096
     | TPattern _ _ rc => (3 <= rc <= 256)%nat
     | TGroup3 _ _ _ => True
     | TTail2 _ _ => (i + 2 = length data)%nat
     | TTail1 _ => (i + 1 = length data)%nat
     end.

(** The two loops started at cursor [i] with the fuel their callers give
    them for cursor [0], less the characters already passed. *)
Definition encode_from (data : list byte) (i : nat) : res str :=
  encode_loop (length data - i) data i [].

Definition decode_from (encoded : str) (i : nat) (st : dstate) : res dstate :=
  decode_loop (length encoded - i) encoded i st.

(** The number of bits left in the bit buffer after a token. *)
Definition token_bits (t : token) : Z :=
  match t with
  | TTail1 _ => 4
  | _ => 0
  end.

(** The padding byte the decoder produces after a token: the two-byte
    trailing case fills its second character with eight zero bits. *)
Definition token_pad (t : token) : list Z :=
  match t with
  | TTail2 _ _ => [0]
  | _ => []
  end.

(** No run of 4096 or more [0x00] bytes and none of [0xFF] bytes. *)
Definition short_runs (data : list byte) : Prop :=
  (max_run x00 data < 4096)%nat /\ (max_run xff data < 4096)%nat.

(** A code point that is neither in the Private Use Area nor one of the
    five special characters. *)
Definition stray (c : Z) : Prop :=
  (c < PRIVATE_USE_START \/ PRIVATE_USE_END < c)
  /\ c <> zero_run /\ c <> one_run /\ c <> repeat_2 /\ c <> escape /\ c <> end_marker.

(** Three bytes read as one 24-bit number, first byte on top. *)
Definition concat24 (b1 b2 b3 : byte) : Z :=
  int_of_byte b1 * 65536 + int_of_byte b2 * 256 + int_of_byte b3.

(** At cursor [i] none of the three compressing branches fires. *)
Definition uncompressed (data : list byte) (i : nat) (byte_val : Z) : Prop :=
  run_branch data i byte_val 0x00 zero_run = Ok None
  /\ run_branch data i byte_val 0xFF one_run = Ok None
  /\ pattern_branch data i = Ok None.

(** ** Predicates used in the further properties *)

(** The characters [_encode_bytes] can write: the 4096 characters
    [_int_to_unicode] returns for the values 0 to 4095, and the three
    markers. *)
Definition payload_char (c : Z) : Prop :=
  PRIVATE_USE_START <= c < PRIVATE_USE_START + 4096
  \/ c = zero_run \/ c = one_run \/ c = repeat_2.

(** The counts a token can hold. *)
Definition token_wf (t : token) : Prop :=
  match t with
  | TRun _ c => (4 <= c <= 4096)%nat
  | TPattern _ _ rc => (3 <= rc <= 256)%nat
  | _ => True
  end.

(** The characters [_unicode_to_int] accepts. *)
Definition private_use (c : Z) : Prop := PRIVATE_USE_START <= c <= PRIVATE_USE_END.

(** The special characters [_decode_to_bytes] tests for. *)
Definition marker (c : Z) : Prop := c = zero_run \/ c = one_run \/ c = repeat_2.

(** The bit buffer between two passes of the decoding loop: empty, or the
    four bits left over from an odd number of 12-bit characters. *)
Definition buffer_ok (st : dstate) : Prop :=
  (bit_count st = 0 /\ bit_buffer st = 0)
  \/ (bit_count st = 4 /\ 0 <= bit_buffer st < 16).

(** The sizes on which [f.read] raises no [ValueError]: [None], or an int
    from [-1] on. *)
Definition read_size_ok (max_bytes : option Z) : Prop :=
  match max_bytes with
  | Some n => -1 <= n
  | None => True
  end.


(** The part of an artifact [decode_string] hands to [_decode_to_bytes]:
    what follows the tag and the size header, less one final end marker. *)
Definition payload_of (encoded : str) : str :=
  let data_part := drop 5 encoded in
  if endswith data_part end_marker
  then take (length data_part - 1) data_part
  else data_part.

(** The check run over the catalog: a tag is one character, or one
    character followed by the variation selector U+FE0F. *)
Definition tag_shape (c : str) : bool :=
  match c with
  | [_] => true
  | [_; s] => s =? 0xFE0F
  | _ => false
  end.

(** The check run over the catalog: the reverse map sends the tag of a
    pair to an extension that has this same tag. *)
Definition tag_stable (kv : string * str) : bool :=
  match REVERSE_FORMAT_MAP !! kv.2 with
  | Some e' => bool_decide (FORMAT_MAP !! e' = Some kv.2)
  | None => false
  end.

(** ** Tactics *)

(** Linear arithmetic with division and remainder by constants. *)
Ltac dlia := Z.to_euclidean_division_equations; lia.

(** In a goal [bind m k = Ok r -> _], look at [m]: an error ends the goal. *)
Ltac bind_ok_or_fail :=
  match goal with
  | |- bind ?m _ = Ok _ -> _ => destruct m; cbn [bind]; [|discriminate]
  end.

(** * Properties *)

(** ** Facts on the result monad and on the constants *)

Lemma bits_per_char_eq : bits_per_char = 12.
Proof. reflexivity. Qed.

Lemma values_per_char_eq : values_per_char = 4096.
Proof. reflexivity. Qed.

(** ** The symbol alphabet *)

Lemma int_to_unicode_ok (v : Z) :
  0 <= v < 4096 -> _int_to_unicode v = Ok (PRIVATE_USE_START + v).
Proof.
  intros Hv. unfold _int_to_unicode, chr. rewrite values_per_char_eq.
  destruct (Z.leb_spec 4096 v); [lia|].
  unfold PRIVATE_USE_START.
  destruct (Z.leb_spec 0 (0xE000 + v)); [|lia].
  destruct (Z.ltb_spec (0xE000 + v) 0x110000); [reflexivity|lia].
Qed.

Lemma int_to_unicode_too_large (v : Z) :
  4096 <= v -> _int_to_unicode v = Err (ValueOutOfRange v).
Proof.
  intros Hv. unfold _int_to_unicode. rewrite values_per_char_eq.
  destruct (Z.leb_spec 4096 v); [reflexivity|lia].
Qed.

Lemma unicode_to_int_ok (c : Z) :
  PRIVATE_USE_START <= c <= PRIVATE_USE_END ->
  _unicode_to_int c = Ok (c - PRIVATE_USE_START).
Proof.
  intros Hc. unfold _unicode_to_int, ord.
  destruct (Z.ltb_spec c PRIVATE_USE_START); [lia|].
  destruct (Z.ltb_spec PRIVATE_USE_END c); [lia|reflexivity].
Qed.

Lemma unicode_to_int_outside (c : Z) :
  c < PRIVATE_USE_START \/ PRIVATE_USE_END < c ->
  _unicode_to_int c = Err (OutsidePrivateUse c).
Proof.
  intros Hc. unfold _unicode_to_int, ord.
  destruct (Z.ltb_spec c PRIVATE_USE_START); [reflexivity|].
  destruct (Z.ltb_spec PRIVATE_USE_END c); [reflexivity|lia].
Qed.

Lemma unicode_to_int_err (c : Z) (e : exn) :
  _unicode_to_int c = Err e -> e = OutsidePrivateUse c.
Proof.
  unfold _unicode_to_int, ord.
  destruct (_ || _); congruence.
Qed.

Lemma unicode_of_int_roundtrip (v : Z) :
  0 <= v < 4096 -> (do c <- _int_to_unicode v; _unicode_to_int c) = Ok v.
Proof.
  intros Hv. rewrite int_to_unicode_ok by lia. simpl.
  rewrite unicode_to_int_ok by (unfold PRIVATE_USE_START, PRIVATE_USE_END; lia).
  f_equal. lia.
Qed.

(** C3, as amended: every value of [[0, 4095]] survives the trip through
    [_int_to_unicode] and [_unicode_to_int], and every value above 4095 is
    rejected by [_int_to_unicode] with its out-of-range error. *)
Theorem alphabet_bijection_and_upper_guard (v : Z) :
  (0 <= v <= 4095 -> (do c <- _int_to_unicode v; _unicode_to_int c) = Ok v)
  /\ (4095 < v -> _int_to_unicode v = Err (ValueOutOfRange v)).
Proof.
  split; intros Hv.
  - apply unicode_of_int_roundtrip. lia.
  - apply int_to_unicode_too_large. lia.
Qed.

(** The two parts of the alphabet theorem at the boundary values 4095 and
    4096. *)
Lemma alphabet_bijection_and_upper_guard_witness :
  (do c <- _int_to_unicode 4095; _unicode_to_int c) = Ok 4095
  /\ _int_to_unicode 4096 = Err (ValueOutOfRange 4096).
Proof.
  split.
  - apply (proj1 (alphabet_bijection_and_upper_guard 4095)). lia.
  - apply (proj2 (alphabet_bijection_and_upper_guard 4096)). lia.
Defined.

(** C3, as stated, fails below zero: [_int_to_unicode] only tests the upper
    bound, so [-1] is not rejected and comes back as U+DFFF, a character
    outside the Private Use Area. *)
Lemma int_to_unicode_accepts_negative :
  -1 < 0 /\ _int_to_unicode (-1) = Ok 0xDFFF
  /\ _unicode_to_int 0xDFFF = Err (OutsidePrivateUse 0xDFFF).
Proof. repeat split; reflexivity. Qed.

(** ** The decoder never runs out of fuel and never leaves its string *)

Lemma land_255_range (x : Z) : 0 <= Z.land x 0xFF < 256.
Proof.
  change 0xFF with (Z.ones 8). rewrite Z.land_ones by lia.
  apply Z.mod_pos_bound. lia.
Qed.

Lemma bytes_ok_app (l1 l2 : list Z) : bytes_ok l1 -> bytes_ok l2 -> bytes_ok (l1 ++ l2).
Proof. unfold bytes_ok. intros. apply Forall_app; auto. Qed.

Lemma bytes_ok_replicate (n : nat) (v : Z) : 0 <= v < 256 -> bytes_ok (replicate n v).
Proof. intros Hv. unfold bytes_ok. apply Forall_replicate. exact Hv. Qed.

Lemma bytes_of_ints_total (l : list Z) :
  bytes_ok l -> exists b, bytes_of_ints l = Ok b /\ map int_of_byte b = l.
Proof.
  induction 1 as [|v l Hv _ IH]; simpl.
  - exists []. auto.
  - destruct IH as (b & -> & Hb).
    destruct (Z.leb_spec 0 v); [|lia].
    destruct (Byte.of_N (Z.to_N v)) as [x|] eqn:Hx.
    + simpl. exists (x :: b). split; [reflexivity|]. simpl. f_equal; [|exact Hb].
      unfold int_of_byte. apply Byte.to_of_N in Hx. rewrite Hx. lia.
    + apply Byte.of_N_None_iff in Hx. lia.
Qed.

Lemma extract_loop_total (fuel : nat) (st : dstate) :
  bit_count st <= Z.of_nat fuel -> bytes_ok (result st) ->
  exists st', extract_loop fuel st = Ok st' /\ bytes_ok (result st') /\ bit_count st' < 8.
Proof.
  revert st. induction fuel as [|fuel IH]; intros st Hfuel Hok; simpl.
  - destruct (Z.leb_spec 8 (bit_count st)); [lia|]. eauto.
  - destruct (Z.leb_spec 8 (bit_count st)); [|eauto].
    apply IH; simpl; [lia|].
    apply bytes_ok_app; [exact Hok|].
    constructor; [apply land_255_range | constructor].
Qed.

Lemma decode_standard_total (char : Z) (st : dstate) :
  bytes_ok (result st) ->
  exists st', decode_standard char st = Ok st' /\ bytes_ok (result st').
Proof.
  intros Hok. unfold decode_standard.
  destruct (_unicode_to_int char) as [value|e]; [|eauto].
  destruct (extract_loop_total
              (Z.to_nat (bit_count st + bits_per_char))
              {| result := result st;
                 bit_buffer := Z.lor (Z.shiftl (bit_buffer st) bits_per_char) value;
                 bit_count := bit_count st + bits_per_char |})
    as (st' & Hst' & Hok' & _); simpl; [lia | exact Hok | eauto].
Qed.

Lemma getitem_lt {A : Type} (l : list A) (i : nat) :
  (i < length l)%nat -> exists x, getitem l i = Ok x /\ l !! i = Some x.
Proof.
  intros Hi. unfold getitem.
  destruct (lookup_lt_is_Some_2 l i Hi) as [x Hx]. rewrite Hx. eauto.
Qed.

Lemma decode_run_total (encoded : str) (i : nat) (fill : Z) (st : dstate) :
  0 <= fill < 256 -> (i <= length encoded)%nat -> bytes_ok (result st) ->
  match decode_run encoded i fill st with
  | Ok (i', st') => (i <= i' <= length encoded)%nat /\ bytes_ok (result st')
  | Err e => operand_error e
  end.
Proof.
  intros Hfill Hi Hok. unfold decode_run.
  destruct (Nat.ltb_spec i (length encoded)) as [Hlt|Hge]; [|auto].
  destruct (getitem_lt encoded i Hlt) as (c & -> & _). simpl.
  destruct (_unicode_to_int c) as [count|e] eqn:Hc; simpl.
  - split; [lia|]. apply bytes_ok_app; [exact Hok|].
    apply bytes_ok_replicate, Hfill.
  - exists c. apply unicode_to_int_err in Hc. exact Hc.
Qed.

Lemma bytes_ok_concat_replicate (n : nat) (l : list Z) :
  bytes_ok l -> bytes_ok (concat (replicate n l)).
Proof.
  intros Hl. induction n as [|n IH]; simpl.
  - constructor.
  - apply bytes_ok_app; assumption.
Qed.

Lemma decode_repeat_total (encoded : str) (i : nat) (st : dstate) :
  (i <= length encoded)%nat -> bytes_ok (result st) ->
  match decode_repeat encoded i st with
  | Ok (i', st') => (i <= i' <= length encoded)%nat /\ bytes_ok (result st')
  | Err e => operand_error e
  end.
Proof.
  intros Hi Hok. unfold decode_repeat.
  destruct (Nat.ltb_spec (i + 2) (length encoded)) as [Hlt|Hge]; [|auto].
  destruct (getitem_lt encoded i) as (c0 & -> & _); [lia|]. simpl.
  destruct (_unicode_to_int c0) as [high|e] eqn:H0; simpl;
    [|exists c0; apply unicode_to_int_err in H0; exact H0].
  destruct (getitem_lt encoded (i + 1)) as (c1 & -> & _); [lia|]. simpl.
  destruct (_unicode_to_int c1) as [low|e] eqn:H1; simpl;
    [|exists c1; apply unicode_to_int_err in H1; exact H1].
  destruct (getitem_lt encoded (i + 2)) as (c2 & -> & _); [lia|]. simpl.
  destruct (_unicode_to_int c2) as [count|e] eqn:H2; simpl;
    [|exists c2; apply unicode_to_int_err in H2; exact H2].
  split; [lia|]. apply bytes_ok_app; [exact Hok|].
  apply bytes_ok_concat_replicate.
  repeat constructor; apply land_255_range.
Qed.

(** A pass of the decoding loop moves the cursor forward and stays inside
    the string; the only exception it can raise is the one of
    [_unicode_to_int] on a marker's operand. *)
Lemma decode_step_total (encoded : str) (i : nat) (st : dstate) :
  (i < length encoded)%nat -> bytes_ok (result st) ->
  match decode_step encoded i st with
  | Ok (i', st') => (i < i' <= length encoded)%nat /\ bytes_ok (result st')
  | Err e => operand_error e
  end.
Proof.
  intros Hi Hok. unfold decode_step.
  destruct (getitem_lt encoded i Hi) as (c & -> & _). simpl.
  destruct (c =? zero_run).
  { pose proof (decode_run_total encoded (i + 1) 0x00 st ltac:(lia) ltac:(lia) Hok) as H.
    destruct (decode_run encoded (i + 1) 0 st) as [[i' st']|e]; [|exact H].
    split; [lia | apply H]. }
  destruct (c =? one_run).
  { pose proof (decode_run_total encoded (i + 1) 0xFF st ltac:(lia) ltac:(lia) Hok) as H.
    destruct (decode_run encoded (i + 1) 255 st) as [[i' st']|e]; [|exact H].
    split; [lia | apply H]. }
  destruct (c =? repeat_2).
  { pose proof (decode_repeat_total encoded (i + 1) st ltac:(lia) Hok) as H.
    destruct (decode_repeat encoded (i + 1) st) as [[i' st']|e]; [|exact H].
    split; [lia | apply H]. }
  destruct (decode_standard_total c st Hok) as (st' & -> & Hok'). simpl.
  split; [lia | exact Hok'].
Qed.

Lemma decode_loop_total (fuel : nat) (encoded : str) (i : nat) (st : dstate) :
  (length encoded <= i + fuel)%nat -> bytes_ok (result st) ->
  match decode_loop fuel encoded i st with
  | Ok st' => bytes_ok (result st')
  | Err e => operand_error e
  end.
Proof.
  revert i st. induction fuel as [|fuel IH]; intros i st Hfuel Hok; simpl.
  - destruct (Nat.ltb_spec i (length encoded)); [lia | exact Hok].
  - destruct (Nat.ltb_spec i (length encoded)) as [Hi|Hi]; [|exact Hok].
    pose proof (decode_step_total encoded i st Hi Hok) as Hstep.
    destruct (decode_step encoded i st) as [[i' st']|e]; simpl; [|exact Hstep].
    apply IH; [lia | apply Hstep].
Qed.

(** [_decode_to_bytes] returns a byte string or raises the operand error. *)
Lemma decode_to_bytes_total (encoded : str) :
  match _decode_to_bytes encoded with
  | Ok _ => True
  | Err e => operand_error e
  end.
Proof.
  unfold _decode_to_bytes.
  pose proof (decode_loop_total (length encoded) encoded 0
                {| result := []; bit_buffer := 0; bit_count := 0 |}) as H.
  destruct (decode_loop _ _ _ _) as [st|e]; simpl.
  - destruct (bytes_of_ints_total (result st)) as (b & -> & _); [|exact I].
    apply H; [lia | constructor].
  - apply H; [lia | constructor].
Qed.

Lemma size_header_loop_err (size_header : str) (acc : Z) (e : exn) :
  size_header_loop size_header acc = Err e ->
  exists char, char ∈ size_header /\ e = InvalidSizeHeaderChar char
               /\ (char < PRIVATE_USE_START \/ PRIVATE_USE_END < char).
Proof.
  revert acc. induction size_header as [|c rest IH]; intros acc; simpl; [discriminate|].
  destruct (_unicode_to_int c) as [v|e'] eqn:Hc.
  - intros H. destruct (IH _ H) as (char & Hin & He & Hout).
    exists char. split; [right; exact Hin | auto].
  - intros [= <-]. exists c. split; [left | split; [reflexivity|]].
    unfold _unicode_to_int, ord in Hc.
    destruct (Z.ltb_spec c PRIVATE_USE_START); [lia|].
    destruct (Z.ltb_spec PRIVATE_USE_END c); [lia | discriminate].
Qed.

(** C7: a string of fewer than six characters is rejected, the empty one
    with "Empty encoded string" and the others with "Encoded data too
    short", and no result is returned; a string of six characters or more is
    never rejected with either of these two errors. *)
Theorem decode_string_minimum_length (encoded : str) :
  ((length encoded < 6)%nat ->
     decode_string encoded
     = Err (match encoded with [] => EmptyEncodedString | _ => EncodedDataTooShort end))
  /\ ((6 <= length encoded)%nat ->
        decode_string encoded <> Err EncodedDataTooShort
        /\ decode_string encoded <> Err EmptyEncodedString).
Proof.
  split.
  - intros Hlen. unfold decode_string. destruct encoded as [|c rest]; [reflexivity|].
    destruct (Nat.ltb_spec (length (c :: rest)) 6); [reflexivity | lia].
  - intros Hlen. unfold decode_string. destruct encoded as [|c rest]; [simpl in Hlen; lia|].
    destruct (Nat.ltb_spec (length (c :: rest)) 6); [lia|].
    destruct (size_header_loop _ 0) as [size|e] eqn:Hsize; cbn [bind].
    + match goal with |- context [_decode_to_bytes ?p] =>
        pose proof (decode_to_bytes_total p) as Hdec;
        destruct (_decode_to_bytes p) as [b|e] end; cbn [bind].
      * split; discriminate.
      * destruct Hdec as [code ->]. split; discriminate.
    + apply size_header_loop_err in Hsize. destruct Hsize as (char & _ & -> & _).
      split; discriminate.
Qed.

(** The length theorem on a string of three characters and on the
    six-character frame of an empty payload. *)
Lemma decode_string_minimum_length_witness :
  decode_string [0x1F4E6; 0xE000; 0xE000] = Err EncodedDataTooShort
  /\ decode_string [0x1F4E6; 0xE000; 0xE000; 0xE000; 0xE000; 0x1F3C1] <> Err EncodedDataTooShort.
Proof.
  split.
  - apply (proj1 (decode_string_minimum_length [0x1F4E6; 0xE000; 0xE000])). simpl. lia.
  - apply (proj2 (decode_string_minimum_length
                    [0x1F4E6; 0xE000; 0xE000; 0xE000; 0xE000; 0x1F3C1])). simpl. lia.
Defined.

(** ** The format catalog *)

Lemma dict_of_items_foldl {K V : Type} `{Countable K}
    (items : list (K * V)) (d : gmap K V) (k : K) :
  foldl (fun d kv => <[kv.1 := kv.2]> d) d items !! k
  = match last_value k items with
    | Some v => Some v
    | None => d !! k
    end.
Proof.
  revert d. induction items as [|[k' v] rest IH]; intros d; simpl; [reflexivity|].
  rewrite IH. destruct (last_value k rest) as [v'|]; [reflexivity|].
  destruct (decide (k' = k)) as [->|Hne].
  - apply lookup_insert_eq.
  - apply lookup_insert_ne, Hne.
Qed.

(** A dict holds for each key the value assigned last. *)
Lemma dict_of_items_lookup {K V : Type} `{Countable K} (items : list (K * V)) (k : K) :
  dict_of_items items !! k = last_value k items.
Proof.
  unfold dict_of_items. rewrite dict_of_items_foldl.
  destruct (last_value k items); [reflexivity | apply lookup_empty].
Qed.

(** The keys of the [FORMAT_MAP] literal are pairwise distinct, so
    [FORMAT_MAP.items()] runs through [FORMAT_ITEMS] in source order. *)
Lemma FORMAT_ITEMS_keys_distinct : NoDup (map fst FORMAT_ITEMS).
Proof. refine (bool_decide_unpack _ _). vm_compute. exact I. Qed.

Lemma REVERSE_FORMAT_MAP_last (tag : str) :
  REVERSE_FORMAT_MAP !! tag = last_value tag REVERSE_ITEMS.
Proof. apply dict_of_items_lookup. Qed.

(** C10: the catalog is not injective ('.png' and '.css' share one
    character, '.ppt', '.xls' and '.json' another), the reverse map holds for
    each character the extension registered last, and so a registered
    extension can come back changed: an empty '.png' file decodes as '.css'. *)
Theorem format_map_not_injective :
  (FORMAT_MAP !! ".png"%string = Some [0x1F3A8]
   /\ FORMAT_MAP !! ".css"%string = Some [0x1F3A8])
  /\ (FORMAT_MAP !! ".ppt"%string = Some [0x1F4CA]
      /\ FORMAT_MAP !! ".xls"%string = Some [0x1F4CA]
      /\ FORMAT_MAP !! ".json"%string = Some [0x1F4CA])
  /\ (forall tag, REVERSE_FORMAT_MAP !! tag = last_value tag REVERSE_ITEMS)
  /\ (REVERSE_FORMAT_MAP !! [0x1F3A8] = Some ".css"%string
      /\ REVERSE_FORMAT_MAP !! [0x1F4CA] = Some ".json"%string)
  /\ exists (e : string) (b : list byte) (e' : string),
       is_Some (FORMAT_MAP !! e)
       /\ (do s <- encode b e; decode_string s) = Ok (b, e')
       /\ e' <> e.
Proof.
  split; [split; reflexivity|].
  split; [repeat split; reflexivity|].
  split; [exact REVERSE_FORMAT_MAP_last|].
  split; [split; reflexivity|].
  exists ".png"%string, [], ".css"%string.
  split; [eexists; reflexivity|].
  split; [vm_compute; reflexivity | discriminate].
Qed.

(** ** Bit arithmetic *)

Lemma int_of_byte_range (b : byte) : 0 <= int_of_byte b < 256.
Proof.
  unfold int_of_byte. pose proof (Byte.to_N_bounded b). lia.
Qed.

Lemma int_of_byte_inj (a b : byte) : int_of_byte a = int_of_byte b -> a = b.
Proof.
  unfold int_of_byte. intros H.
  assert (Hn : Byte.to_N a = Byte.to_N b) by lia.
  pose proof (Byte.of_to_N a) as Ha. pose proof (Byte.of_to_N b) as Hb.
  congruence.
Qed.

Lemma land_shiftl_low (a k v : Z) :
  0 <= k -> 0 <= v < 2 ^ k -> Z.land (Z.shiftl a k) v = 0.
Proof.
  intros Hk Hv. apply Z.bits_inj'. intros n Hn.
  rewrite Z.land_spec, Z.bits_0.
  destruct (Z.lt_ge_cases n k) as [Hlt|Hge].
  - rewrite Z.shiftl_spec_low by lia. reflexivity.
  - rewrite <- (Z.mod_small v (2 ^ k)) by lia.
    rewrite Z.mod_pow2_bits_high by lia. apply andb_false_r.
Qed.

(** [(a << k) | v] is [a * 2^k + v] when [v] fits in [k] bits. *)
Lemma lor_shiftl_add (a k v : Z) :
  0 <= k -> 0 <= v < 2 ^ k -> Z.lor (Z.shiftl a k) v = a * 2 ^ k + v.
Proof.
  intros Hk Hv.
  pose proof (land_shiftl_low a k v Hk Hv) as Hland.
  rewrite <- Z.lxor_lor by exact Hland.
  rewrite <- Z.add_nocarry_lxor by exact Hland.
  rewrite Z.shiftl_mul_pow2 by lia. reflexivity.
Qed.

Lemma land_ones_mod (a k : Z) : 0 <= k -> Z.land a (Z.shiftl 1 k - 1) = a mod 2 ^ k.
Proof.
  intros Hk. rewrite Z.shiftl_1_l. rewrite <- Z.land_ones by lia.
  rewrite Z.ones_equiv. reflexivity.
Qed.

Lemma land_0xFF (a : Z) : Z.land a 0xFF = a mod 256.
Proof. change 0xFF with (Z.ones 8). rewrite Z.land_ones by lia. reflexivity. Qed.

Lemma land_0xFFF (a : Z) : Z.land a 0xFFF = a mod 4096.
Proof. change 0xFFF with (Z.ones 12). rewrite Z.land_ones by lia. reflexivity. Qed.

Lemma land_0x0F (a : Z) : Z.land a 0x0F = a mod 16.
Proof. change 0x0F with (Z.ones 4). rewrite Z.land_ones by lia. reflexivity. Qed.

(** The two characters of a three-byte group, as numbers. *)
Lemma value_12bit_arith (b1 b2 : Z) :
  0 <= b1 < 256 -> 0 <= b2 < 256 ->
  Z.land (Z.lor (Z.shiftl b1 4) (Z.shiftr b2 4)) 0xFFF = b1 * 16 + b2 / 16.
Proof.
  intros H1 H2. rewrite land_0xFFF, Z.shiftr_div_pow2 by lia.
  change (2 ^ 4) with 16.
  rewrite lor_shiftl_add by (change (2 ^ 4) with 16; dlia).
  change (2 ^ 4) with 16. apply Z.mod_small. dlia.
Qed.

Lemma value_12bit_2_arith (b2 b3 : Z) :
  0 <= b2 < 256 -> 0 <= b3 < 256 ->
  Z.lor (Z.shiftl (Z.land b2 0x0F) 8) b3 = (b2 mod 16) * 256 + b3.
Proof.
  intros H2 H3. rewrite land_0x0F.
  rewrite lor_shiftl_add by (change (2 ^ 8) with 256; dlia).
  reflexivity.
Qed.

(** ** The bit accumulator of the decoder *)

Lemma extract_loop_step (fuel : nat) (res : list Z) (buf cnt : Z) :
  8 <= cnt ->
  extract_loop (S fuel) (DState res buf cnt)
  = extract_loop fuel
      (DState (res ++ [(buf / 2 ^ (cnt - 8)) mod 256]) (buf mod 2 ^ (cnt - 8)) (cnt - 8)).
Proof.
  intros Hcnt. simpl. destruct (Z.leb_spec 8 cnt); [|lia].
  rewrite land_0xFF, Z.shiftr_div_pow2, land_ones_mod by lia. reflexivity.
Qed.

Lemma extract_loop_done (fuel : nat) (st : dstate) :
  bit_count st < 8 -> extract_loop fuel st = Ok st.
Proof.
  intros Hcnt. destruct fuel; simpl; destruct (Z.leb_spec 8 (bit_count st)); auto; lia.
Qed.

(** A character of the Private Use Area shifts its value into the buffer. *)
Lemma decode_standard_packed (v : Z) (res : list Z) (buf cnt : Z) :
  0 <= v < 4096 ->
  decode_standard (PRIVATE_USE_START + v) (DState res buf cnt)
  = extract_loop (Z.to_nat (cnt + 12)) (DState res (buf * 4096 + v) (cnt + 12)).
Proof.
  intros Hv. unfold decode_standard.
  rewrite unicode_to_int_ok by (unfold PRIVATE_USE_START, PRIVATE_USE_END; lia).
  replace (PRIVATE_USE_START + v - PRIVATE_USE_START) with v by lia.
  cbn [result bit_buffer bit_count]. rewrite bits_per_char_eq.
  rewrite lor_shiftl_add by (change (2 ^ 12) with 4096; lia).
  reflexivity.
Qed.

(** From an empty accumulator, the first character of a group yields the
    first byte and keeps the high nibble of the second. *)
Lemma decode_first_of_group (res : list Z) (b1 n2 : Z) :
  0 <= b1 < 256 -> 0 <= n2 < 16 ->
  decode_standard (PRIVATE_USE_START + (b1 * 16 + n2)) (DState res 0 0)
  = Ok (DState (res ++ [b1]) n2 4).
Proof.
  intros H1 H2. rewrite decode_standard_packed by lia.
  change (Z.to_nat (0 + 12)) with 12%nat. change (0 + 12) with 12.
  rewrite extract_loop_step by lia. change (12 - 8) with 4. change (2 ^ 4) with 16.
  rewrite extract_loop_done by (simpl; lia).
  do 2 f_equal; [f_equal; f_equal|]; dlia.
Qed.

(** With a nibble pending, the second character yields two bytes and
    leaves the accumulator empty. *)
Lemma decode_second_of_group (res : list Z) (n2 l2 b3 : Z) :
  0 <= n2 < 16 -> 0 <= l2 < 16 -> 0 <= b3 < 256 ->
  decode_standard (PRIVATE_USE_START + (l2 * 256 + b3)) (DState res n2 4)
  = Ok (DState (res ++ [n2 * 16 + l2; b3]) 0 0).
Proof.
  intros H1 H2 H3. rewrite decode_standard_packed by lia.
  change (Z.to_nat (4 + 12)) with 16%nat. change (4 + 12) with 16.
  rewrite extract_loop_step by lia. change (16 - 8) with 8. change (2 ^ 8) with 256.
  rewrite extract_loop_step by lia. change (8 - 8) with 0. change (2 ^ 0) with 1.
  rewrite extract_loop_done by (simpl; lia).
  rewrite <- app_assoc. simpl.
  do 2 f_equal; [f_equal; f_equal; [|f_equal]|]; dlia.
Qed.

(** ** The counting loop of the run branches *)

Lemma data_at_lookup (data : list byte) (i : nat) (b : byte) :
  data !! i = Some b -> data_at data i = Ok (int_of_byte b).
Proof. intros H. unfold data_at, getitem. rewrite H. reflexivity. Qed.

Lemma byte_eqb_eq (a b : byte) : Byte.eqb a b = true <-> a = b.
Proof. split; [apply Byte.byte_dec_bl | apply Byte.byte_dec_lb]. Qed.

Lemma byte_eqb_refl (a : byte) : Byte.eqb a a = true.
Proof. apply byte_eqb_eq. reflexivity. Qed.

Lemma int_of_byte_eqb (a b : byte) : (int_of_byte a =? int_of_byte b) = Byte.eqb a b.
Proof.
  destruct (Z.eqb_spec (int_of_byte a) (int_of_byte b)) as [H|H].
  - apply int_of_byte_inj in H. subst. symmetry. apply byte_eqb_refl.
  - destruct (Byte.eqb a b) eqn:E; [|reflexivity].
    apply byte_eqb_eq in E. subst. contradiction.
Qed.

Lemma leading_le_length (tb : byte) (l : list byte) : (leading tb l <= length l)%nat.
Proof.
  induction l as [|b rest IH]; simpl; [lia|].
  destruct (Byte.eqb b tb); lia.
Qed.

Lemma leading_lookup_lt (tb : byte) (l : list byte) (k : nat) :
  (k < leading tb l)%nat -> l !! k = Some tb.
Proof.
  revert k. induction l as [|b rest IH]; intros k; simpl; [lia|].
  destruct (Byte.eqb b tb) eqn:E; [|lia].
  apply byte_eqb_eq in E. subst b.
  destruct k as [|k]; [reflexivity|]. intros Hk. apply IH. lia.
Qed.

Lemma leading_lookup_stop (tb : byte) (l : list byte) :
  l !! leading tb l <> Some tb.
Proof.
  induction l as [|b rest IH]; simpl; [discriminate|].
  destruct (Byte.eqb b tb) eqn:E; simpl.
  - exact IH.
  - intros [= ->]. rewrite byte_eqb_refl in E. discriminate.
Qed.

Lemma leading_take (tb : byte) (l : list byte) (c : nat) :
  (c <= leading tb l)%nat -> take c l = replicate c tb.
Proof.
  revert c. induction l as [|b rest IH]; intros c; simpl.
  - intros Hc. replace c with O by lia. reflexivity.
  - destruct (Byte.eqb b tb) eqn:E.
    + apply byte_eqb_eq in E. subst b.
      destruct c as [|c]; [reflexivity|]. intros Hc. simpl. f_equal. apply IH. lia.
    + intros Hc. replace c with O by lia. reflexivity.
Qed.

Lemma leading_drop_le_max_run (tb : byte) (l : list byte) (i : nat) :
  (leading tb (drop i l) <= max_run tb l)%nat.
Proof.
  revert i. induction l as [|b rest IH]; intros i.
  - rewrite drop_nil. simpl. lia.
  - destruct i as [|i].
    + rewrite drop_0. cbn [max_run]. lia.
    + cbn [drop max_run]. specialize (IH i). lia.
Qed.

Lemma run_continues_leading (data : list byte) (i : nat) (tb : byte) (count : nat) :
  (count <= leading tb (drop i data))%nat ->
  run_continues data i (int_of_byte tb) count
  = (count <? leading tb (drop i data))%nat && (count <? 4096)%nat.
Proof.
  intros Hle. unfold run_continues.
  destruct (Nat.ltb_spec count (leading tb (drop i data))) as [Hlt|Hge].
  - pose proof (leading_lookup_lt tb _ _ Hlt) as Hk. rewrite lookup_drop in Hk.
    pose proof (lookup_lt_Some _ _ _ Hk) as Hlen.
    rewrite Hk, Z.eqb_refl.
    destruct (Nat.ltb_spec (i + count) (length data)); [reflexivity | lia].
  - assert (count = leading tb (drop i data)) as Hc by lia.
    pose proof (leading_lookup_stop tb (drop i data)) as Hstop.
    rewrite <- Hc, lookup_drop in Hstop.
    destruct (data !! (i + count)%nat) as [b|] eqn:Hb.
    + rewrite int_of_byte_eqb.
      destruct (Byte.eqb b tb) eqn:E.
      * apply byte_eqb_eq in E. subst b. contradiction.
      * rewrite andb_false_r. reflexivity.
    + rewrite andb_false_r. reflexivity.
Qed.

(** The counting loop stops on its guard, never on its fuel, and returns the
    length of the run that starts at [i], cut at 4096. *)
Lemma run_loop_leading (fuel : nat) (data : list byte) (i : nat) (tb : byte) (count : nat) :
  (count <= leading tb (drop i data))%nat -> (count <= 4096)%nat ->
  (4096 <= count + fuel)%nat ->
  run_loop fuel data i (int_of_byte tb) count
  = Ok (Nat.min (leading tb (drop i data)) 4096).
Proof.
  revert count. induction fuel as [|fuel IH]; intros count Hle Hcap Hfuel.
  - cbn [run_loop]. rewrite run_continues_leading by exact Hle.
    destruct (Nat.ltb_spec count 4096); [lia|].
    rewrite andb_false_r. f_equal. lia.
  - cbn [run_loop]. rewrite run_continues_leading by exact Hle.
    destruct (Nat.ltb_spec count (leading tb (drop i data)));
      destruct (Nat.ltb_spec count 4096); cbn [andb].
    + apply IH; lia.
    + f_equal. lia.
    + f_equal. lia.
    + f_equal. lia.
Qed.

(** ** The branches of the encoder *)

Lemma leading_head (tb : byte) (data : list byte) (i : nat) :
  data !! i = Some tb -> (1 <= leading tb (drop i data))%nat.
Proof.
  intros Hi. rewrite <- (take_drop_middle data i tb Hi).
  rewrite drop_app_length' by (rewrite length_take; apply lookup_lt_Some in Hi; lia).
  simpl. rewrite byte_eqb_refl. lia.
Qed.

(** A run branch fires when the byte under the cursor is the target and the
    run is at least four bytes long; the cursor then moves by the counted
    length [c], while the count character holds [min c 4095]. *)
Lemma run_branch_spec (data : list byte) (i : nat) (b0 tb : byte) (marker : Z) :
  data !! i = Some b0 ->
  run_branch data i (int_of_byte b0) (int_of_byte tb) marker
  = Ok (let c := Nat.min (leading tb (drop i data)) 4096 in
        if Byte.eqb b0 tb && (4 <=? c)%nat
        then Some ([marker; PRIVATE_USE_START + Z.min (Z.of_nat c) 4095], (i + c)%nat)
        else None).
Proof.
  intros Hi. unfold run_branch. rewrite int_of_byte_eqb.
  destruct (Byte.eqb b0 tb) eqn:E; [|reflexivity].
  apply byte_eqb_eq in E. subst b0.
  rewrite run_loop_leading by (try apply leading_head; try lia; exact Hi).
  cbn [bind andb].
  destruct (4 <=? Nat.min (leading tb (drop i data)) 4096)%nat; [|reflexivity].
  rewrite values_per_char_eq. change (4096 - 1) with 4095.
  rewrite int_to_unicode_ok by lia. reflexivity.
Qed.

Lemma bytes_eqb_eq (x y : list byte) : bytes_eqb x y = true <-> x = y.
Proof.
  revert y. induction x as [|a x IH]; intros [|b y]; simpl; try (split; [discriminate|discriminate]);
    try (split; reflexivity).
  rewrite andb_true_iff, byte_eqb_eq, IH. split.
  - intros [-> ->]. reflexivity.
  - intros [= -> ->]. auto.
Qed.

Lemma take_add_drop {A : Type} (l : list A) (a b : nat) :
  take (a + b) l = take a l ++ take b (drop a l).
Proof.
  revert l. induction a as [|a IH]; intros l; simpl.
  - rewrite drop_0. reflexivity.
  - destruct l as [|x l]; simpl.
    + rewrite take_nil. reflexivity.
    + f_equal. apply IH.
Qed.

Lemma concat_replicate_snoc {A : Type} (n : nat) (p : list A) :
  concat (replicate (S n) p) = concat (replicate n p) ++ p.
Proof.
  induction n as [|n IH].
  - simpl. rewrite app_nil_r. reflexivity.
  - change (concat (replicate (S (S n)) p)) with (p ++ concat (replicate (S n) p)).
    rewrite IH at 1. rewrite app_assoc. reflexivity.
Qed.

(** The repetitions counted by the pattern loop are in the data, the loop
    stops on its guard, and its two counters stay in step. *)
Lemma pattern_loop_sound (fuel : nat) (data pat : list byte) (i rc : nat) :
  take (2 * rc) (drop i data) = concat (replicate rc pat) ->
  (rc <= 256)%nat -> (256 <= rc + fuel)%nat ->
  exists rc',
    pattern_loop fuel data pat rc (i + 2 * rc) = Ok (rc', (i + 2 * rc')%nat)
    /\ (rc <= rc' <= 256)%nat
    /\ take (2 * rc') (drop i data) = concat (replicate rc' pat).
Proof.
  revert rc. induction fuel as [|fuel IH]; intros rc Hpre Hcap Hfuel.
  - cbn [pattern_loop]. destruct (Nat.ltb_spec rc 256); [lia|].
    rewrite andb_false_r. exists rc. repeat split; [lia | lia | exact Hpre].
  - cbn [pattern_loop].
    destruct (_ && _ && _) eqn:Hguard; [|exists rc; repeat split; [lia | lia | exact Hpre]].
    apply andb_true_iff in Hguard. destruct Hguard as [Hguard Hlt].
    apply andb_true_iff in Hguard. destruct Hguard as [_ Heq].
    apply Nat.ltb_lt in Hlt. apply bytes_eqb_eq in Heq.
    unfold slice in Heq. replace (i + 2 * rc + 2 - (i + 2 * rc))%nat with 2%nat in Heq by lia.
    destruct (IH (rc + 1)%nat) as (rc' & Hloop & Hrange & Htake).
    + replace (2 * (rc + 1))%nat with (2 * rc + 2)%nat by lia.
      rewrite take_add_drop, Hpre, drop_drop, Heq.
      replace (rc + 1)%nat with (S rc) by lia.
      rewrite concat_replicate_snoc. reflexivity.
    + lia.
    + lia.
    + exists rc'. replace (i + 2 * rc + 2)%nat with (i + 2 * (rc + 1))%nat by lia.
      repeat split; [exact Hloop | lia | lia | exact Htake].
Qed.

Lemma slice_2 (data : list byte) (i : nat) (p0 p1 : byte) :
  data !! i = Some p0 -> data !! (i + 1)%nat = Some p1 ->
  slice data i (i + 2) = [p0; p1].
Proof.
  intros H0 H1. unfold slice. replace (i + 2 - i)%nat with 2%nat by lia.
  assert (D0 : drop i data !! 0%nat = Some p0)
    by (rewrite lookup_drop, Nat.add_0_r; exact H0).
  assert (D1 : drop i data !! 1%nat = Some p1)
    by (rewrite lookup_drop; exact H1).
  destruct (drop i data) as [|x [|y rest]]; simpl in *; try discriminate.
  rewrite take_0. congruence.
Qed.

Lemma pattern_val_arith (p0 p1 : Z) :
  0 <= p0 < 256 -> 0 <= p1 < 256 ->
  Z.lor (Z.shiftl p0 8) p1 = p0 * 256 + p1.
Proof.
  intros H0 H1. rewrite lor_shiftl_add by (change (2 ^ 8) with 256; lia). reflexivity.
Qed.

(** The pattern branch either falls through or emits one pattern token for
    [rc] repetitions that are in the data, moving the cursor by [rc * 2]. *)
Lemma pattern_branch_spec (data : list byte) (i : nat) :
  pattern_branch data i = Ok None
  \/ exists p0 p1 rc,
       data !! i = Some p0 /\ data !! (i + 1)%nat = Some p1
       /\ (3 <= rc <= 256)%nat
       /\ take (2 * rc) (drop i data) = concat (replicate rc [p0; p1])
       /\ pattern_branch data i = Ok (Some (pattern_token p0 p1 rc, (i + rc * 2)%nat)).
Proof.
  unfold pattern_branch.
  destruct (Nat.ltb_spec (i + 3) (length data)) as [Hlen|Hlen]; [|left; reflexivity].
  destruct (lookup_lt_is_Some_2 data i) as [p0 H0]; [lia|].
  destruct (lookup_lt_is_Some_2 data (i + 1)) as [p1 H1]; [lia|].
  rewrite (slice_2 data i p0 p1 H0 H1).
  destruct (bytes_eqb (slice data (i + 2) (i + 4)) [p0; p1]) eqn:Heq; [|left; reflexivity].
  apply bytes_eqb_eq in Heq. unfold slice in Heq.
  replace (i + 4 - (i + 2))%nat with 2%nat in Heq by lia.
  destruct (pattern_loop_sound 256 data [p0; p1] i 2) as (rc & Hloop & Hrange & Htake).
  { change (2 * 2)%nat with (2 + 2)%nat.
    rewrite take_add_drop, drop_drop, Heq.
    assert (Hs : take 2 (drop i data) = [p0; p1]).
    { rewrite <- (slice_2 data i p0 p1 H0 H1). unfold slice. f_equal. lia. }
    rewrite Hs. reflexivity. }
  { lia. }
  { lia. }
  change (i + 2 * 2)%nat with (i + 4)%nat in Hloop. rewrite Hloop. cbn [bind].
  destruct (Nat.leb_spec 3 rc) as [H3|H3]; [|left; reflexivity].
  right. exists p0, p1, rc.
  split; [exact H0|]. split; [exact H1|]. split; [lia|]. split; [exact Htake|].
  pose proof (int_of_byte_range p0) as R0. pose proof (int_of_byte_range p1) as R1.
  unfold data_at, getitem. cbn [lookup list_lookup bind].
  rewrite pattern_val_arith by lia.
  rewrite bits_per_char_eq, Z.shiftr_div_pow2, land_ones_mod by lia.
  change (2 ^ 12) with 4096.
  rewrite !int_to_unicode_ok by dlia. cbn [bind].
  reflexivity.
Qed.

(** The standard branch never fails; what it emits depends only on how many
    bytes are left. *)
Lemma standard_branch_spec (data : list byte) (i : nat) (b1 : byte) :
  data !! i = Some b1 ->
  standard_branch data i
  = Ok match data !! (i + 1)%nat with
       | None => (tail1 b1, (i + 1)%nat)
       | Some b2 =>
           match data !! (i + 2)%nat with
           | None => (tail2 b1 b2, (i + 2)%nat)
           | Some b3 => (group3 b1 b2 b3, (i + 3)%nat)
           end
       end.
Proof.
  intros H1. unfold standard_branch.
  pose proof (int_of_byte_range b1) as R1.
  rewrite (data_at_lookup _ _ _ H1). cbn [bind].
  destruct (data !! (i + 1)%nat) as [b2|] eqn:H2.
  - pose proof (lookup_lt_Some _ _ _ H2) as L2.
    pose proof (int_of_byte_range b2) as R2.
    destruct (Nat.ltb_spec (i + 1) (length data)); [|lia].
    rewrite (data_at_lookup _ _ _ H2). cbn [bind].
    rewrite value_12bit_arith by lia.
    rewrite int_to_unicode_ok by dlia. cbn [bind].
    destruct (data !! (i + 2)%nat) as [b3|] eqn:H3.
    + pose proof (lookup_lt_Some _ _ _ H3) as L3.
      pose proof (int_of_byte_range b3) as R3.
      destruct (Nat.ltb_spec (i + 2) (length data)); [|lia].
      rewrite (data_at_lookup _ _ _ H3). cbn [bind].
      rewrite value_12bit_2_arith by lia.
      rewrite int_to_unicode_ok by dlia. reflexivity.
    + apply lookup_ge_None in H3.
      destruct (Nat.ltb_spec (i + 2) (length data)); [lia|].
      rewrite land_0x0F, Z.shiftl_mul_pow2 by lia. change (2 ^ 8) with 256.
      rewrite int_to_unicode_ok by dlia. reflexivity.
  - apply lookup_ge_None in H2.
    destruct (Nat.ltb_spec (i + 1) (length data)); [lia|].
    rewrite Z.shiftl_mul_pow2 by lia. change (2 ^ 4) with 16.
    rewrite int_to_unicode_ok by lia. reflexivity.
Qed.

Lemma run_branch_target (data : list byte) (i : nat) (b0 : byte) (ones : bool) (target : Z) :
  data !! i = Some b0 -> target = int_of_byte (fill_byte ones) ->
  run_branch data i (int_of_byte b0) target (run_marker ones)
  = Ok (let c := Nat.min (leading (fill_byte ones) (drop i data)) 4096 in
        if Byte.eqb b0 (fill_byte ones) && (4 <=? c)%nat
        then Some (token_chars (TRun ones c), (i + c)%nat)
        else None).
Proof. intros Hi ->. apply run_branch_spec, Hi. Qed.

Lemma length_concat_replicate_2 {A : Type} (n : nat) (x y : A) :
  length (concat (replicate n [x; y])) = (n * 2)%nat.
Proof. induction n as [|n IH]; simpl; [reflexivity | rewrite IH; reflexivity]. Qed.

(** ** One pass of the encoding loop emits one token *)

Lemma encode_step_spec (data : list byte) (i : nat) :
  (i < length data)%nat ->
  exists t,
    encode_step data i = Ok (token_chars t, (i + length (token_source t))%nat)
    /\ token_at data i t.
Proof.
  intros Hi. destruct (lookup_lt_is_Some_2 data i Hi) as [b0 H0].
  unfold encode_step. rewrite (data_at_lookup _ _ _ H0). cbn [bind].
  change zero_run with (run_marker false). change one_run with (run_marker true).
  rewrite (run_branch_target data i b0 false 0 H0 eq_refl). cbn [bind].
  destruct (Byte.eqb b0 (fill_byte false)
            && (4 <=? Nat.min (leading (fill_byte false) (drop i data)) 4096)%nat) eqn:Hz.
  { apply andb_true_iff in Hz. destruct Hz as [_ Hz]. apply Nat.leb_le in Hz.
    exists (TRun false (Nat.min (leading (fill_byte false) (drop i data)) 4096)).
    cbn [token_source]. rewrite length_replicate. split; [reflexivity|].
    split; [|split; [lia | reflexivity]].
    cbn [token_source]. rewrite length_replicate. apply leading_take. lia. }
  rewrite (run_branch_target data i b0 true 0xFF H0 eq_refl). cbn [bind].
  destruct (Byte.eqb b0 (fill_byte true)
            && (4 <=? Nat.min (leading (fill_byte true) (drop i data)) 4096)%nat) eqn:Ho.
  { apply andb_true_iff in Ho. destruct Ho as [_ Ho]. apply Nat.leb_le in Ho.
    exists (TRun true (Nat.min (leading (fill_byte true) (drop i data)) 4096)).
    cbn [token_source]. rewrite length_replicate. split; [reflexivity|].
    split; [|split; [lia | reflexivity]].
    cbn [token_source]. rewrite length_replicate. apply leading_take. lia. }
  destruct (pattern_branch_spec data i) as [->|(p0 & p1 & rc & _ & _ & Hrc & Htake & ->)];
    cbn [bind].
  2:{ exists (TPattern p0 p1 rc). cbn [token_source token_chars].
      rewrite length_concat_replicate_2. split; [reflexivity|].
      split; [|exact Hrc]. cbn [token_source].
      rewrite length_concat_replicate_2. rewrite Nat.mul_comm. exact Htake. }
  rewrite (standard_branch_spec data i b0 H0).
  assert (D0 : drop i data !! 0%nat = Some b0)
    by (rewrite lookup_drop, Nat.add_0_r; exact H0).
  destruct (data !! (i + 1)%nat) as [b1|] eqn:H1.
  - assert (D1 : drop i data !! 1%nat = Some b1) by (rewrite lookup_drop; exact H1).
    destruct (data !! (i + 2)%nat) as [b2|] eqn:H2.
    + assert (D2 : drop i data !! 2%nat = Some b2) by (rewrite lookup_drop; exact H2).
      exists (TGroup3 b0 b1 b2). split; [reflexivity|]. split; [|exact I].
      destruct (drop i data) as [|x [|y [|z rest]]]; simpl in *; try discriminate.
      rewrite take_0. congruence.
    + exists (TTail2 b0 b1). split; [reflexivity|].
      apply lookup_ge_None in H2. apply lookup_lt_Some in H1.
      split; [|simpl; lia].
      destruct (drop i data) as [|x [|y rest]]; simpl in *; try discriminate.
      rewrite take_0. congruence.
  - exists (TTail1 b0). split; [reflexivity|].
    apply lookup_ge_None in H1.
    split; [|simpl; lia].
    destruct (drop i data) as [|x rest]; simpl in *; try discriminate.
    rewrite take_0. congruence.
Qed.

Lemma token_at_bounds (data : list byte) (i : nat) (t : token) :
  token_at data i t ->
  (1 <= length (token_source t))%nat
  /\ (i + length (token_source t) <= length data)%nat.
Proof.
  intros [Htake Hside].
  assert (Hpos : (1 <= length (token_source t))%nat).
  { destruct t; cbn [token_source] in *;
      rewrite ?length_replicate, ?length_concat_replicate_2; simpl; lia. }
  split; [exact Hpos|].
  apply (f_equal length) in Htake. rewrite length_take, length_drop in Htake. lia.
Qed.

(** ** The loops and their fuel *)

Lemma encode_loop_acc (fuel : nat) (data : list byte) (i : nat) (acc : str) :
  encode_loop fuel data i acc
  = (do p <- encode_loop fuel data i []; Ok (acc ++ p)).
Proof.
  revert i acc. induction fuel as [|fuel IH]; intros i acc; cbn [encode_loop].
  - destruct (i <? length data)%nat; cbn [bind]; [reflexivity|].
    rewrite app_nil_r. reflexivity.
  - destruct (i <? length data)%nat; cbn [bind]; [|rewrite app_nil_r; reflexivity].
    destruct (encode_step data i) as [[out i']|e]; cbn [bind]; [|reflexivity].
    rewrite (IH i' (acc ++ out)), (IH i' ([] ++ out)).
    destruct (encode_loop fuel data i' []) as [p|e]; cbn [bind]; [|reflexivity].
    rewrite app_nil_l, app_assoc. reflexivity.
Qed.

Lemma encode_loop_fuel (f1 f2 : nat) (data : list byte) (i : nat) (acc : str) :
  (length data <= i + f1)%nat -> (f1 <= f2)%nat ->
  encode_loop f2 data i acc = encode_loop f1 data i acc.
Proof.
  revert f2 i acc. induction f1 as [|f1 IH]; intros f2 i acc Hlen Hle.
  - destruct f2; cbn [encode_loop];
      destruct (Nat.ltb_spec i (length data)); try reflexivity; lia.
  - destruct f2 as [|f2]; [lia|]. cbn [encode_loop].
    destruct (Nat.ltb_spec i (length data)) as [Hi|Hi]; [|reflexivity].
    destruct (encode_step_spec data i Hi) as (t & -> & Hat). cbn [bind].
    apply token_at_bounds in Hat. apply IH; lia.
Qed.

Lemma encode_from_end (data : list byte) (i : nat) :
  (length data <= i)%nat -> encode_from data i = Ok [].
Proof.
  intros Hi. unfold encode_from.
  destruct (length data - i)%nat; cbn [encode_loop];
    destruct (Nat.ltb_spec i (length data)); try reflexivity; lia.
Qed.

Lemma encode_from_step (data : list byte) (i : nat) (t : token) :
  (i < length data)%nat ->
  encode_step data i = Ok (token_chars t, (i + length (token_source t))%nat) ->
  token_at data i t ->
  encode_from data i
  = (do p <- encode_from data (i + length (token_source t)); Ok (token_chars t ++ p)).
Proof.
  intros Hi Hstep Hat. apply token_at_bounds in Hat. unfold encode_from.
  destruct (length data - i)%nat as [|fuel] eqn:Hfuel; [lia|].
  cbn [encode_loop]. destruct (Nat.ltb_spec i (length data)); [|lia].
  rewrite Hstep. cbn [bind]. rewrite encode_loop_acc.
  rewrite (encode_loop_fuel (length data - (i + length (token_source t))) fuel) by lia.
  reflexivity.
Qed.

Lemma decode_step_progress (encoded : str) (i : nat) (st : dstate) (i' : nat) (st' : dstate) :
  (i < length encoded)%nat -> decode_step encoded i st = Ok (i', st') ->
  (i < i' <= length encoded)%nat.
Proof.
  intros Hi. unfold decode_step, decode_run, decode_repeat.
  destruct (getitem_lt encoded i Hi) as (c & -> & _). cbn [bind].
  destruct (c =? zero_run); [|destruct (c =? one_run); [|destruct (c =? repeat_2)]].
  - destruct (Nat.ltb_spec (i + 1) (length encoded)); [|intros [= <- <-]; lia].
    repeat bind_ok_or_fail. intros [= <- <-]. lia.
  - destruct (Nat.ltb_spec (i + 1) (length encoded)); [|intros [= <- <-]; lia].
    repeat bind_ok_or_fail. intros [= <- <-]. lia.
  - destruct (Nat.ltb_spec (i + 1 + 2) (length encoded)); [|intros [= <- <-]; lia].
    repeat bind_ok_or_fail. intros [= <- <-]. lia.
  - repeat bind_ok_or_fail. intros [= <- <-]. lia.
Qed.

Lemma decode_loop_fuel (f1 f2 : nat) (encoded : str) (i : nat) (st : dstate) :
  (length encoded <= i + f1)%nat -> (f1 <= f2)%nat ->
  decode_loop f2 encoded i st = decode_loop f1 encoded i st.
Proof.
  revert f2 i st. induction f1 as [|f1 IH]; intros f2 i st Hlen Hle.
  - destruct f2; cbn [decode_loop];
      destruct (Nat.ltb_spec i (length encoded)); try reflexivity; lia.
  - destruct f2 as [|f2]; [lia|]. cbn [decode_loop].
    destruct (Nat.ltb_spec i (length encoded)) as [Hi|Hi]; [|reflexivity].
    destruct (decode_step encoded i st) as [[i' st']|e] eqn:Hstep; cbn [bind]; [|reflexivity].
    apply decode_step_progress in Hstep; [|exact Hi]. apply IH; lia.
Qed.

Lemma decode_from_end (encoded : str) (i : nat) (st : dstate) :
  (length encoded <= i)%nat -> decode_from encoded i st = Ok st.
Proof.
  intros Hi. unfold decode_from.
  destruct (length encoded - i)%nat; cbn [decode_loop];
    destruct (Nat.ltb_spec i (length encoded)); try reflexivity; lia.
Qed.

Lemma decode_from_step (encoded : str) (i : nat) (st : dstate) (i' : nat) (st' : dstate) :
  (i < length encoded)%nat -> decode_step encoded i st = Ok (i', st') ->
  decode_from encoded i st = decode_from encoded i' st'.
Proof.
  intros Hi Hstep. pose proof (decode_step_progress _ _ _ _ _ Hi Hstep) as Hprog.
  unfold decode_from.
  destruct (length encoded - i)%nat as [|fuel] eqn:Hfuel; [lia|].
  cbn [decode_loop]. destruct (Nat.ltb_spec i (length encoded)); [|lia].
  rewrite Hstep. cbn [bind]. apply decode_loop_fuel; lia.
Qed.

(** ** The decoder on the characters of one token *)

Lemma lookup_app_at {A : Type} (pre l : list A) (k : nat) :
  (pre ++ l) !! (length pre + k)%nat = l !! k.
Proof.
  rewrite lookup_app_r by lia. f_equal. lia.
Qed.

Lemma getitem_lookup {A : Type} (l : list A) (i : nat) (x : A) :
  l !! i = Some x -> getitem l i = Ok x.
Proof. intros H. unfold getitem. rewrite H. reflexivity. Qed.

Lemma decode_step_packed (encoded : str) (i : nat) (v : Z) (st : dstate) :
  encoded !! i = Some (PRIVATE_USE_START + v) -> 0 <= v < 4096 ->
  decode_step encoded i st
  = (do st' <- decode_standard (PRIVATE_USE_START + v) st; Ok ((i + 1)%nat, st')).
Proof.
  intros Hi Hv. unfold decode_step. rewrite (getitem_lookup _ _ _ Hi). cbn [bind].
  destruct (Z.eqb_spec (PRIVATE_USE_START + v) zero_run) as [E|_];
    [unfold PRIVATE_USE_START, zero_run in E; lia|].
  destruct (Z.eqb_spec (PRIVATE_USE_START + v) one_run) as [E|_];
    [unfold PRIVATE_USE_START, one_run in E; lia|].
  destruct (Z.eqb_spec (PRIVATE_USE_START + v) repeat_2) as [E|_];
    [unfold PRIVATE_USE_START, repeat_2 in E; lia|].
  reflexivity.
Qed.

Lemma decode_step_run (encoded : str) (i : nat) (ones : bool) (count : Z) (st : dstate) :
  encoded !! i = Some (run_marker ones) ->
  encoded !! (i + 1)%nat = Some (PRIVATE_USE_START + count) -> 0 <= count < 4096 ->
  decode_step encoded i st
  = Ok ((i + 2)%nat,
        DState (result st ++ replicate (Z.to_nat count) (int_of_byte (fill_byte ones)))
               (bit_buffer st) (bit_count st)).
Proof.
  intros Hi Hc Hcount. unfold decode_step. rewrite (getitem_lookup _ _ _ Hi). cbn [bind].
  pose proof (lookup_lt_Some _ _ _ Hc) as Hlen.
  assert (Hrun : decode_run encoded (i + 1) (int_of_byte (fill_byte ones)) st
                 = Ok ((i + 2)%nat,
                       DState (result st
                               ++ replicate (Z.to_nat count) (int_of_byte (fill_byte ones)))
                              (bit_buffer st) (bit_count st))).
  { unfold decode_run. destruct (Nat.ltb_spec (i + 1) (length encoded)); [|lia].
    rewrite (getitem_lookup _ _ _ Hc). cbn [bind].
    rewrite unicode_to_int_ok by (unfold PRIVATE_USE_START, PRIVATE_USE_END; lia).
    cbn [bind]. do 2 f_equal; [lia|]. do 3 f_equal. lia. }
  destruct ones; cbn [run_marker]; [|exact Hrun].
  change (one_run =? zero_run) with false. change (one_run =? one_run) with true.
  cbv iota. exact Hrun.
Qed.

Lemma pattern_bytes_arith (p0 p1 : Z) :
  0 <= p0 < 256 -> 0 <= p1 < 256 ->
  let pattern_val :=
    Z.lor (Z.shiftl ((p0 * 256 + p1) / 4096) bits_per_char) ((p0 * 256 + p1) mod 4096) in
  Z.land (Z.shiftr pattern_val 8) 0xFF = p0 /\ Z.land pattern_val 0xFF = p1.
Proof.
  intros H0 H1. cbv zeta. rewrite bits_per_char_eq.
  rewrite lor_shiftl_add by (change (2 ^ 12) with 4096; dlia).
  change (2 ^ 12) with 4096.
  rewrite !land_0xFF, Z.shiftr_div_pow2 by lia. change (2 ^ 8) with 256.
  split; dlia.
Qed.

Lemma decode_step_pattern (encoded : str) (i : nat) (p0 p1 : byte) (rc : nat) (st : dstate) :
  encoded !! i = Some repeat_2 ->
  encoded !! (i + 1)%nat
  = Some (PRIVATE_USE_START + (int_of_byte p0 * 256 + int_of_byte p1) / 4096) ->
  encoded !! (i + 1 + 1)%nat
  = Some (PRIVATE_USE_START + (int_of_byte p0 * 256 + int_of_byte p1) mod 4096) ->
  encoded !! (i + 1 + 2)%nat = Some (PRIVATE_USE_START + Z.of_nat rc) ->
  (rc <= 256)%nat ->
  decode_step encoded i st
  = Ok ((i + 4)%nat,
        DState (result st ++ concat (replicate rc [int_of_byte p0; int_of_byte p1]))
               (bit_buffer st) (bit_count st)).
Proof.
  intros Hi Hhi Hlo Hc Hrc. unfold decode_step. rewrite (getitem_lookup _ _ _ Hi). cbn [bind].
  change (repeat_2 =? zero_run) with false. change (repeat_2 =? one_run) with false.
  change (repeat_2 =? repeat_2) with true. cbv iota.
  pose proof (lookup_lt_Some _ _ _ Hc) as Hlen.
  pose proof (int_of_byte_range p0) as R0. pose proof (int_of_byte_range p1) as R1.
  unfold decode_repeat. destruct (Nat.ltb_spec (i + 1 + 2) (length encoded)); [|lia].
  rewrite (getitem_lookup _ _ _ Hhi). cbn [bind].
  rewrite unicode_to_int_ok by (unfold PRIVATE_USE_START, PRIVATE_USE_END; dlia). cbn [bind].
  rewrite (getitem_lookup _ _ _ Hlo). cbn [bind].
  rewrite unicode_to_int_ok by (unfold PRIVATE_USE_START, PRIVATE_USE_END; dlia). cbn [bind].
  rewrite (getitem_lookup _ _ _ Hc). cbn [bind].
  rewrite unicode_to_int_ok by (unfold PRIVATE_USE_START, PRIVATE_USE_END; lia). cbn [bind].
  replace (PRIVATE_USE_START + (int_of_byte p0 * 256 + int_of_byte p1) / 4096
           - PRIVATE_USE_START)
    with ((int_of_byte p0 * 256 + int_of_byte p1) / 4096) by lia.
  replace (PRIVATE_USE_START + (int_of_byte p0 * 256 + int_of_byte p1) mod 4096
           - PRIVATE_USE_START)
    with ((int_of_byte p0 * 256 + int_of_byte p1) mod 4096) by lia.
  destruct (pattern_bytes_arith (int_of_byte p0) (int_of_byte p1) R0 R1) as [-> ->].
  do 2 f_equal; [lia|]. do 4 f_equal. lia.
Qed.

Lemma stored_count_range (c : nat) : 0 <= stored_count c < 4096.
Proof. unfold stored_count. lia. Qed.

(** Read with an empty bit buffer, the characters of a token put the
    token's bytes on [result], whatever surrounds them. *)
Lemma decode_token (pre : str) (t : token) (rest : str) (res : list Z) :
  match t with TPattern _ _ rc => (rc <= 256)%nat | _ => True end ->
  decode_from (pre ++ token_chars t ++ rest) (length pre) (DState res 0 0)
  = decode_from (pre ++ token_chars t ++ rest) (length pre + length (token_chars t))
      (DState (res ++ token_decoded t) 0 (token_bits t)).
Proof.
  intros Hrc.
  assert (L0 : forall c l, (pre ++ c :: l) !! length pre = Some c).
  { intros c l. pose proof (lookup_app_at pre (c :: l) 0) as H.
    rewrite Nat.add_0_r in H. exact H. }
  assert (L1 : forall c0 c l, (pre ++ c0 :: c :: l) !! (length pre + 1)%nat = Some c).
  { intros c0 c l. rewrite lookup_app_at; reflexivity. }
  assert (Hlt : forall c l, (length pre < length (pre ++ c :: l))%nat).
  { intros c l. rewrite length_app. simpl. lia. }
  destruct t as [ones c|p0 p1 rc|b1 b2 b3|b1 b2|b1];
    cbn [token_chars token_decoded token_bits].
  - cbn [app]. erewrite decode_from_step; [|apply Hlt|].
    2:{ apply decode_step_run; [apply L0 | apply L1 | apply stored_count_range]. }
    reflexivity.
  - unfold pattern_token. cbn [app]. erewrite decode_from_step; [|apply Hlt|].
    2:{ apply decode_step_pattern with (p0 := p0) (p1 := p1) (rc := rc);
        [apply L0 | apply L1 | | | exact Hrc].
        - replace (length pre + 1 + 1)%nat with (length pre + 2)%nat by lia.
          exact (lookup_app_at pre _ 2).
        - replace (length pre + 1 + 2)%nat with (length pre + 3)%nat by lia.
          exact (lookup_app_at pre _ 3). }
    reflexivity.
  - pose proof (int_of_byte_range b1) as R1. pose proof (int_of_byte_range b2) as R2.
    pose proof (int_of_byte_range b3) as R3.
    unfold group3. cbn [app]. erewrite decode_from_step; [|apply Hlt|].
    2:{ rewrite decode_step_packed with (v := int_of_byte b1 * 16 + int_of_byte b2 / 16);
        [|apply L0|dlia].
        rewrite decode_first_of_group by dlia. reflexivity. }
    erewrite decode_from_step.
    2:{ rewrite length_app. simpl. lia. }
    2:{ rewrite decode_step_packed
          with (v := (int_of_byte b2 mod 16) * 256 + int_of_byte b3); [|apply L1|dlia].
        rewrite decode_second_of_group by dlia. reflexivity. }
    cbn [length]. rewrite <- app_assoc. cbn [app].
    replace (int_of_byte b2 / 16 * 16 + int_of_byte b2 mod 16) with (int_of_byte b2) by dlia.
    f_equal. lia.
  - pose proof (int_of_byte_range b1) as R1. pose proof (int_of_byte_range b2) as R2.
    unfold tail2. cbn [app]. erewrite decode_from_step; [|apply Hlt|].
    2:{ rewrite decode_step_packed with (v := int_of_byte b1 * 16 + int_of_byte b2 / 16);
        [|apply L0|dlia].
        rewrite decode_first_of_group by dlia. reflexivity. }
    erewrite decode_from_step.
    2:{ rewrite length_app. simpl. lia. }
    2:{ rewrite decode_step_packed with (v := (int_of_byte b2 mod 16) * 256 + 0);
        [|rewrite Z.add_0_r; apply L1|dlia].
        rewrite decode_second_of_group by dlia. reflexivity. }
    cbn [length]. rewrite <- app_assoc. cbn [app].
    replace (int_of_byte b2 / 16 * 16 + int_of_byte b2 mod 16) with (int_of_byte b2) by dlia.
    f_equal. lia.
  - pose proof (int_of_byte_range b1) as R1.
    unfold tail1. cbn [app]. erewrite decode_from_step; [|apply Hlt|].
    2:{ rewrite decode_step_packed with (v := int_of_byte b1 * 16 + 0);
        [|rewrite Z.add_0_r; apply L0|lia].
        rewrite decode_first_of_group by lia. reflexivity. }
    reflexivity.
Qed.

(** ** Decoding what the encoder wrote *)

Lemma map_replicate {A B : Type} (f : A -> B) (n : nat) (x : A) :
  map f (replicate n x) = replicate n (f x).
Proof. induction n as [|n IH]; simpl; [reflexivity | rewrite IH; reflexivity]. Qed.

Lemma map_concat_replicate {A B : Type} (f : A -> B) (n : nat) (l : list A) :
  map f (concat (replicate n l)) = concat (replicate n (map f l)).
Proof.
  induction n as [|n IH]; simpl; [reflexivity|].
  rewrite map_app, IH. reflexivity.
Qed.

Lemma token_decoded_ok (t : token) : bytes_ok (token_decoded t).
Proof.
  destruct t; cbn [token_decoded].
  - apply bytes_ok_replicate, int_of_byte_range.
  - apply bytes_ok_concat_replicate. repeat constructor; apply int_of_byte_range.
  - repeat constructor; apply int_of_byte_range.
  - repeat constructor; try apply int_of_byte_range; lia.
  - repeat constructor; apply int_of_byte_range.
Qed.

(** When the counted run is shorter than 4096 the stored count is the
    counted length, and every token decodes to the bytes it stands for. *)
Lemma token_decoded_exact (data : list byte) (i : nat) (t : token) :
  token_at data i t -> short_runs data ->
  token_decoded t = map int_of_byte (token_source t) ++ token_pad t.
Proof.
  intros [_ Hside] [Hz Ho].
  destruct t as [ones c|p0 p1 rc|b1 b2 b3|b1 b2|b1];
    cbn [token_decoded token_source token_pad]; try reflexivity.
  - destruct Hside as [_ Hc].
    assert (c < 4096)%nat as Hlt.
    { pose proof (leading_drop_le_max_run (fill_byte ones) data i).
      destruct ones; cbn [fill_byte] in *; lia. }
    rewrite map_replicate, app_nil_r. f_equal. unfold stored_count. lia.
  - rewrite map_concat_replicate, app_nil_r. reflexivity.
Qed.

Lemma token_rc_bound (data : list byte) (i : nat) (t : token) :
  token_at data i t ->
  match t with TPattern _ _ rc => (rc <= 256)%nat | _ => True end.
Proof. intros [_ Hside]. destruct t; try exact I. lia. Qed.

Lemma token_terminal_end (data : list byte) (i : nat) (t : token) :
  token_at data i t -> terminal t = true ->
  (i + length (token_source t) = length data)%nat.
Proof. intros [_ Hside]. destruct t; try discriminate; intros _; simpl; lia. Qed.

Lemma token_bits_nonterminal (t : token) : terminal t = false -> token_bits t = 0.
Proof. destruct t; try discriminate; reflexivity. Qed.

Lemma token_pad_nonterminal (t : token) : terminal t = false -> token_pad t = [].
Proof. destruct t; try discriminate; reflexivity. Qed.

(** The encoding loop started at [i] returns a string [p]; the decoding
    loop, started with an empty bit buffer in front of [p], reads all of it
    and puts a list [dec] of byte values on [result].  When the data has no
    run of 4096 bytes, [dec] is the data from [i] on, followed by at most
    one padding byte. *)
Lemma codec_simulation (data : list byte) (n : nat) :
  forall i, (length data - i <= n)%nat -> (i <= length data)%nat ->
  exists p dec,
    encode_from data i = Ok p
    /\ bytes_ok dec
    /\ (forall pre res, exists st,
          decode_from (pre ++ p) (length pre) (DState res 0 0) = Ok st
          /\ result st = res ++ dec)
    /\ (short_runs data ->
        exists pad, dec = map int_of_byte (drop i data) ++ pad /\ (pad = [] \/ pad = [0])).
Proof.
  induction n as [|n IH]; intros i Hn Hi.
  - exists [], []. split; [apply encode_from_end; lia|]. split; [constructor|]. split.
    + intros pre res. exists (DState res 0 0).
      split; [apply decode_from_end; rewrite length_app; simpl; lia|].
      simpl. rewrite app_nil_r. reflexivity.
    + intros _. exists []. rewrite drop_ge by lia. auto.
  - destruct (Nat.eq_dec i (length data)) as [->|Hne].
    { apply IH; lia. }
    assert (Hlt : (i < length data)%nat) by lia.
    destruct (encode_step_spec data i Hlt) as (t & Hstep & Hat).
    pose proof (token_at_bounds data i t Hat) as [Hpos Hend].
    pose proof (encode_from_step data i t Hlt Hstep Hat) as Henc.
    destruct (IH (i + length (token_source t))%nat) as (p' & dec' & Hp' & Hok' & Hdec' & Hexact');
      [lia | lia |].
    rewrite Hp' in Henc. cbn [bind] in Henc.
    destruct (terminal t) eqn:Hterm.
    + pose proof (token_terminal_end data i t Hat Hterm) as Hlast.
      rewrite Hlast in Hp'. rewrite encode_from_end in Hp' by lia.
      injection Hp' as <-.
      exists (token_chars t ++ []), (token_decoded t).
      split; [exact Henc|]. split; [apply token_decoded_ok|]. split.
      * intros pre res. eexists. split.
        -- rewrite decode_token by (apply (token_rc_bound data i), Hat).
           apply decode_from_end. rewrite !length_app. simpl. lia.
        -- reflexivity.
      * intros Hshort. exists (token_pad t).
        rewrite (token_decoded_exact data i t Hat Hshort).
        destruct Hat as [Htake _].
        split.
        -- do 2 f_equal. rewrite <- Htake. rewrite take_ge; [reflexivity|].
           rewrite length_drop. lia.
        -- destruct t; cbn [token_pad]; auto.
    + exists (token_chars t ++ p'), (token_decoded t ++ dec').
      split; [exact Henc|].
      split; [apply bytes_ok_app; [apply token_decoded_ok | exact Hok']|]. split.
      * intros pre res.
        destruct (Hdec' (pre ++ token_chars t) (res ++ token_decoded t)) as (st & Hst & Hres).
        exists st. split.
        -- rewrite decode_token by (apply (token_rc_bound data i), Hat).
           rewrite (token_bits_nonterminal t Hterm).
           rewrite app_assoc, <- length_app. exact Hst.
        -- rewrite Hres, app_assoc. reflexivity.
      * intros Hshort. destruct (Hexact' Hshort) as (pad & -> & Hpad).
        exists pad. split; [|exact Hpad].
        rewrite (token_decoded_exact data i t Hat Hshort).
        rewrite (token_pad_nonterminal t Hterm), app_nil_r.
        destruct Hat as [Htake _].
        rewrite app_assoc, <- map_app. do 2 f_equal.
        rewrite <- (take_drop (length (token_source t)) (drop i data)).
        rewrite Htake, drop_drop. reflexivity.
Qed.

(** ** The container frame *)

Lemma encode_bytes_from (data : list byte) : _encode_bytes data = encode_from data 0.
Proof. unfold _encode_bytes, encode_from. rewrite Nat.sub_0_r. reflexivity. Qed.

Lemma decode_to_bytes_from (encoded : str) :
  _decode_to_bytes encoded
  = (do st <- decode_from encoded 0 (DState [] 0 0); bytes_of_ints (result st)).
Proof. unfold _decode_to_bytes, decode_from. rewrite Nat.sub_0_r. reflexivity. Qed.

Lemma map_int_of_byte_inj (a b : list byte) :
  map int_of_byte a = map int_of_byte b -> a = b.
Proof.
  revert b. induction a as [|x a IH]; intros [|y b]; simpl; try discriminate; [reflexivity|].
  intros [= Hxy Hab]. f_equal; [apply int_of_byte_inj, Hxy | apply IH, Hab].
Qed.

(** [_encode_bytes] always returns a payload, [_decode_to_bytes] always
    accepts it, and for data without a run of 4096 bytes the decoded bytes
    are the data followed by at most one padding byte. *)
Lemma payload_decodes (data : list byte) :
  exists p d,
    _encode_bytes data = Ok p
    /\ _decode_to_bytes p = Ok d
    /\ (short_runs data -> take (length data) d = data /\ (length data <= length d)%nat).
Proof.
  destruct (codec_simulation data (length data) 0) as (p & dec & Hp & Hok & Hdec & Hexact);
    [lia | lia |].
  destruct (Hdec [] []) as (st & Hst & Hres). cbn [app length] in Hst, Hres.
  destruct (bytes_of_ints_total dec Hok) as (d & Hd & Hmap).
  exists p, d. split; [rewrite encode_bytes_from; exact Hp|]. split.
  - rewrite decode_to_bytes_from, Hst. cbn [bind]. rewrite Hres. exact Hd.
  - intros Hshort. destruct (Hexact Hshort) as (pad & Hdec_eq & _).
    rewrite drop_0 in Hdec_eq. rewrite Hdec_eq in Hmap.
    assert (Hlen : (length data <= length d)%nat).
    { apply (f_equal length) in Hmap.
      rewrite length_app, !length_map in Hmap. lia. }
    split; [|exact Hlen].
    apply map_int_of_byte_inj.
    rewrite <- firstn_map, Hmap.
    rewrite take_app_length' by (rewrite length_map; reflexivity). reflexivity.
Qed.

(** The four size characters written for a byte count, most significant
    first. *)
Lemma size_header_of_spec (n : Z) :
  size_header_of n
  = Ok [ PRIVATE_USE_START + (n / 4096 / 4096 / 4096) mod 4096;
         PRIVATE_USE_START + (n / 4096 / 4096) mod 4096;
         PRIVATE_USE_START + (n / 4096) mod 4096;
         PRIVATE_USE_START + n mod 4096 ].
Proof.
  unfold size_header_of, size_loop.
  rewrite !land_0xFFF, !Z.shiftr_div_pow2 by lia. change (2 ^ 12) with 4096.
  rewrite !int_to_unicode_ok by (apply Z.mod_pos_bound; lia).
  reflexivity.
Qed.

Lemma size_header_loop_spec (v3 v2 v1 v0 : Z) :
  0 <= v3 < 4096 -> 0 <= v2 < 4096 -> 0 <= v1 < 4096 -> 0 <= v0 < 4096 ->
  size_header_loop [ PRIVATE_USE_START + v3; PRIVATE_USE_START + v2;
                     PRIVATE_USE_START + v1; PRIVATE_USE_START + v0 ] 0
  = Ok (((v3 * 4096 + v2) * 4096 + v1) * 4096 + v0).
Proof.
  intros H3 H2 H1 H0. cbn [size_header_loop].
  rewrite !unicode_to_int_ok by (unfold PRIVATE_USE_START, PRIVATE_USE_END; lia).
  replace (PRIVATE_USE_START + v3 - PRIVATE_USE_START) with v3 by lia.
  replace (PRIVATE_USE_START + v2 - PRIVATE_USE_START) with v2 by lia.
  replace (PRIVATE_USE_START + v1 - PRIVATE_USE_START) with v1 by lia.
  replace (PRIVATE_USE_START + v0 - PRIVATE_USE_START) with v0 by lia.
  rewrite Z.shiftl_0_l, Z.lor_0_l.
  rewrite !lor_shiftl_add by (change (2 ^ 12) with 4096; lia).
  reflexivity.
Qed.

(** The byte count read back from its own header: the count modulo 2^48. *)
Lemma size_header_roundtrip (n : Z) :
  0 <= n ->
  (do h <- size_header_of n; size_header_loop h 0) = Ok (n mod 2 ^ 48).
Proof.
  intros Hn. rewrite size_header_of_spec. cbn [bind].
  rewrite size_header_loop_spec by (apply Z.mod_pos_bound; lia).
  f_equal. change (2 ^ 48) with 281474976710656. dlia.
Qed.

Lemma endswith_snoc (s : str) (c : Z) : endswith (s ++ [c]) c = true.
Proof. unfold endswith. rewrite last_snoc. apply Z.eqb_refl. Qed.

(** [decode_string] on a one-character tag, four size characters, a
    payload and the end marker. *)
Lemma decode_string_frame (t c3 c2 c1 c0 : Z) (p : str) (n : Z) :
  size_header_loop [c3; c2; c1; c0] 0 = Ok n ->
  decode_string (t :: c3 :: c2 :: c1 :: c0 :: p ++ [end_marker])
  = (do d <- _decode_to_bytes p;
     Ok (if Z.of_nat (length d) >? n then take (Z.to_nat n) d else d,
         lookup_extension t)).
Proof.
  intros Hsize. unfold decode_string.
  cbn [app length Nat.ltb Nat.leb]. unfold slice. cbn [drop take Nat.sub].
  rewrite take_0, Hsize. cbn [bind]. rewrite !drop_0.
  destruct (Nat.leb_spec (length (p ++ [end_marker])) 0) as [Hlen|_];
    [rewrite length_app in Hlen; simpl in Hlen; lia|].
  rewrite endswith_snoc, length_app, Nat.add_sub, take_app_length. reflexivity.
Qed.

Lemma encode_spec (b : list byte) (e : string) :
  encode b e
  = (do p <- _encode_bytes b;
     do h <- size_header_of (Z.of_nat (length b));
     Ok (lookup_tag e ++ h ++ p ++ [end_marker])).
Proof.
  unfold encode, encode_file, lookup_tag.
  cbn [path_exists negb path_suffix_lower path_contents read_file].
  destruct (FORMAT_MAP !! e) as [c|]; cbn [default];
    destruct (_encode_bytes b) as [p|err]; cbn [bind]; try reflexivity;
    destruct (size_header_of (Z.of_nat (length b))) as [h|err]; reflexivity.
Qed.

(** Whatever the data, an artifact written under a one-character tag is
    accepted by [decode_string], which resolves the tag through the reverse
    map. *)
Lemma decode_encode_total (b : list byte) (e : string) (t : Z) :
  lookup_tag e = [t] ->
  exists s d,
    encode b e = Ok (t :: s) /\ decode_string (t :: s) = Ok (d, lookup_extension t).
Proof.
  intros Htag. rewrite encode_spec, Htag.
  destruct (payload_decodes b) as (p & d & -> & Hd & _). cbn [bind].
  rewrite size_header_of_spec. cbn [bind].
  eexists. eexists. split; [reflexivity|].
  cbn [app]. erewrite (decode_string_frame t).
  2:{ apply size_header_loop_spec; apply Z.mod_pos_bound; lia. }
  rewrite Hd. cbn [bind]. reflexivity.
Qed.

(** The round trip for data without a run of 4096 [0x00] or [0xFF] bytes,
    of fewer than 2^48 bytes, under a one-character tag. *)
Lemma roundtrip_short_runs (b : list byte) (e : string) (t : Z) :
  Z.of_nat (length b) < 2 ^ 48 -> short_runs b -> lookup_tag e = [t] ->
  (do s <- encode b e; decode_string s) = Ok (b, lookup_extension t).
Proof.
  intros Hlen Hshort Htag. rewrite encode_spec, Htag.
  destruct (payload_decodes b) as (p & d & -> & Hd & Hexact). cbn [bind].
  destruct (Hexact Hshort) as [Htake Hle].
  pose proof (size_header_roundtrip (Z.of_nat (length b)) ltac:(lia)) as Hsize.
  rewrite size_header_of_spec in Hsize |- *. cbn [bind] in Hsize |- *.
  cbn [app]. rewrite (decode_string_frame t _ _ _ _ p _ Hsize).
  rewrite Hd. cbn [bind]. rewrite Z.mod_small by lia.
  rewrite Nat2Z.id, Htake.
  destruct (Z.gtb_spec (Z.of_nat (length d)) (Z.of_nat (length b))) as [_|Hge];
    [reflexivity|].
  assert (length d = length b) as Heq by lia.
  rewrite <- Htake, <- Heq, firstn_all. reflexivity.
Qed.

(** ** Unknown extensions and the empty buffer *)

Lemma lookup_tag_unregistered (e : string) :
  FORMAT_MAP !! e = None -> lookup_tag e = [0x1F4E6].
Proof. intros H. unfold lookup_tag. rewrite H. reflexivity. Qed.

(** C9: an extension that is not a key of [FORMAT_MAP] is written under the
    character of the catalog's generic entry [''], U+1F4E6, and
    [decode_string] accepts the artifact and reads that character back as
    the extension of the generic entry, the empty string. *)
Theorem unknown_extension_fallback (b : list byte) (e : string) :
  FORMAT_MAP !! e = None ->
  FORMAT_MAP !! ""%string = Some [0x1F4E6]
  /\ exists s d,
       encode b e = Ok (0x1F4E6 :: s)
       /\ decode_string (0x1F4E6 :: s) = Ok (d, ""%string).
Proof.
  intros He. split; [reflexivity|].
  destruct (decode_encode_total b e 0x1F4E6 (lookup_tag_unregistered e He))
    as (s & d & Henc & Hdec).
  exists s, d. split; [exact Henc|]. rewrite Hdec. reflexivity.
Qed.

(** The fallback theorem for three bytes under the unregistered extension
    ['.xyz']. *)
Lemma unknown_extension_fallback_witness :
  FORMAT_MAP !! ""%string = Some [0x1F4E6]
  /\ exists s d,
       encode [x01; x02; x03] ".xyz" = Ok (0x1F4E6 :: s)
       /\ decode_string (0x1F4E6 :: s) = Ok (d, ""%string).
Proof.
  apply (unknown_extension_fallback [x01; x02; x03] ".xyz"). reflexivity.
Defined.

(** Under a one-character tag the empty buffer is framed as the tag, four
    zero-valued size characters and the end marker, and decodes to the
    empty buffer. *)
Lemma empty_buffer_one_character_tag (e : string) (t : Z) :
  lookup_tag e = [t] ->
  encode [] e = Ok [t; 0xE000; 0xE000; 0xE000; 0xE000; end_marker]
  /\ decode_string [t; 0xE000; 0xE000; 0xE000; 0xE000; end_marker]
     = Ok ([], lookup_extension t).
Proof.
  intros Htag. split.
  - rewrite encode_spec, Htag. reflexivity.
  - apply (decode_string_frame t 0xE000 0xE000 0xE000 0xE000 [] 0). reflexivity.
Qed.

(** C6 fails for an extension whose catalog emoji is written with the
    variation selector U+FE0F: the tag of ['.avi'] is two characters long,
    the artifact of the empty buffer has seven characters, and
    [decode_string], which takes one character as the tag, reads the
    selector as the first size character and raises. *)
Theorem empty_buffer_two_character_tag :
  FORMAT_MAP !! ".avi"%string = Some [0x1F39E; 0xFE0F]
  /\ encode [] ".avi"
     = Ok [0x1F39E; 0xFE0F; 0xE000; 0xE000; 0xE000; 0xE000; end_marker]
  /\ decode_string [0x1F39E; 0xFE0F; 0xE000; 0xE000; 0xE000; 0xE000; end_marker]
     = Err (InvalidSizeHeaderChar 0xFE0F).
Proof. repeat split; vm_compute; reflexivity. Qed.

(** ** Runs at the boundary of the count alphabet *)

Lemma leading_replicate (tb : byte) (n : nat) : leading tb (replicate n tb) = n.
Proof.
  induction n as [|n IH]; simpl; [reflexivity|].
  rewrite byte_eqb_refl, IH. reflexivity.
Qed.

Lemma bytes_of_ints_map (l : list byte) : bytes_of_ints (map int_of_byte l) = Ok l.
Proof.
  induction l as [|b l IH]; simpl; [reflexivity|].
  pose proof (int_of_byte_range b) as R.
  destruct (Z.leb_spec 0 (int_of_byte b)); [|lia].
  unfold int_of_byte. rewrite N2Z.id, Byte.of_to_N.
  fold (int_of_byte). rewrite IH. reflexivity.
Qed.

(** The run branches come first: on a run of four or more target bytes the
    pass emits a run token, whatever the other branches would do. *)
Lemma encode_step_run (data : list byte) (i : nat) (ones : bool) :
  data !! i = Some (fill_byte ones) ->
  (4 <= leading (fill_byte ones) (drop i data))%nat ->
  let c := Nat.min (leading (fill_byte ones) (drop i data)) 4096 in
  encode_step data i = Ok (token_chars (TRun ones c), (i + c)%nat).
Proof.
  intros Hi Hrun c. unfold encode_step. rewrite (data_at_lookup _ _ _ Hi). cbn [bind].
  change zero_run with (run_marker false). change one_run with (run_marker true).
  assert (Hc : (4 <=? c)%nat = true) by (apply Nat.leb_le; unfold c; lia).
  destruct ones.
  - rewrite (run_branch_target data i (fill_byte true) false 0 Hi eq_refl).
    change (Byte.eqb (fill_byte true) (fill_byte false)) with false. cbn [andb bind].
    rewrite (run_branch_target data i (fill_byte true) true 0xFF Hi eq_refl).
    rewrite byte_eqb_refl. cbn [andb]. fold c. rewrite Hc. reflexivity.
  - rewrite (run_branch_target data i (fill_byte false) false 0 Hi eq_refl).
    rewrite byte_eqb_refl. cbn [andb]. fold c. rewrite Hc. reflexivity.
Qed.

Lemma encode_bytes_run (ones : bool) (n : nat) :
  (4 <= n <= 4096)%nat ->
  _encode_bytes (replicate n (fill_byte ones)) = Ok (token_chars (TRun ones n)).
Proof.
  intros Hn. set (data := replicate n (fill_byte ones)).
  assert (Hlead : leading (fill_byte ones) (drop 0 data) = n)
    by (rewrite drop_0; apply leading_replicate).
  assert (Hlen : length data = n) by apply length_replicate.
  assert (H0 : data !! 0%nat = Some (fill_byte ones))
    by (apply lookup_replicate_2; lia).
  pose proof (encode_step_run data 0 ones H0 ltac:(lia)) as Hstep.
  cbv zeta in Hstep. rewrite Hlead, Nat.min_l in Hstep by lia.
  rewrite encode_bytes_from.
  rewrite (encode_from_step data 0 (TRun ones n)).
  - cbn [token_source]. rewrite length_replicate, encode_from_end by lia.
    cbn [bind]. rewrite app_nil_r. reflexivity.
  - lia.
  - cbn [token_source]. rewrite length_replicate. exact Hstep.
  - split.
    + cbn [token_source]. rewrite length_replicate, drop_0.
      apply take_ge. unfold data. rewrite length_replicate. lia.
    + rewrite Hlead. lia.
Qed.

Lemma decode_to_bytes_run (ones : bool) (c : nat) :
  _decode_to_bytes (token_chars (TRun ones c))
  = Ok (replicate (Z.to_nat (stored_count c)) (fill_byte ones)).
Proof.
  rewrite decode_to_bytes_from.
  pose proof (decode_token [] (TRun ones c) [] [] I) as H.
  rewrite app_nil_r in H. cbn [app length] in H. rewrite H.
  rewrite decode_from_end by (simpl; lia). cbn [bind result token_decoded token_bits].
  rewrite <- map_replicate. apply bytes_of_ints_map.
Qed.

(** A buffer that is one run of [n] bytes, [4 <= n <= 4096], comes back as
    a run of [min n 4095] bytes. *)
Lemma run_roundtrip (ones : bool) (n : nat) (e : string) (t : Z) :
  (4 <= n <= 4096)%nat -> lookup_tag e = [t] ->
  (do s <- encode (replicate n (fill_byte ones)) e; decode_string s)
  = Ok (replicate (Z.to_nat (stored_count n)) (fill_byte ones), lookup_extension t).
Proof.
  intros Hn Htag. rewrite encode_spec, Htag, encode_bytes_run by exact Hn. cbn [bind].
  rewrite length_replicate.
  pose proof (size_header_roundtrip (Z.of_nat n) ltac:(lia)) as Hsize.
  rewrite size_header_of_spec in Hsize |- *. cbn [bind] in Hsize |- *.
  cbn [app]. rewrite (decode_string_frame t _ _ _ _ _ _ Hsize).
  rewrite decode_to_bytes_run. cbn [bind]. rewrite length_replicate.
  rewrite Z.mod_small by (change (2 ^ 48) with 281474976710656; lia).
  destruct (Z.gtb_spec (Z.of_nat (Z.to_nat (stored_count n))) (Z.of_nat n)) as [Hgt|_];
    [unfold stored_count in Hgt; lia | reflexivity].
Qed.

(** C2 fails at the boundary.  On a run of 4096 bytes the counting loop
    stops at 4096, the cursor moves by 4096, and the count character holds
    [min(4096, 4095)] = 4095: a run of 4095 bytes comes back whole, a run of
    4096 bytes comes back one byte short, for [0x00] and for [0xFF]. *)
Theorem run_boundary_off_by_one (ones : bool) :
  encode_step (replicate 4096 (fill_byte ones)) 0
  = Ok ([run_marker ones; PRIVATE_USE_START + 4095], 4096%nat)
  /\ (do s <- encode (replicate 4095 (fill_byte ones)) ".bin"; decode_string s)
     = Ok (replicate 4095 (fill_byte ones), ".bin"%string)
  /\ (do s <- encode (replicate 4096 (fill_byte ones)) ".bin"; decode_string s)
     = Ok (replicate 4095 (fill_byte ones), ".bin"%string).
Proof.
  split; [|split].
  - pose proof (encode_step_run (replicate 4096 (fill_byte ones)) 0 ones) as H.
    rewrite drop_0, leading_replicate in H. apply H.
    + apply lookup_replicate_2. lia.
    + lia.
  - rewrite (run_roundtrip ones 4095 ".bin" 0x1F522) by (try lia; reflexivity).
    reflexivity.
  - rewrite (run_roundtrip ones 4096 ".bin" 0x1F522) by (try lia; reflexivity).
    reflexivity.
Qed.

(** C1 fails on two kinds of input: a buffer that holds a run of 4096
    [0x00] bytes loses a byte, and under an extension whose tag is written
    with the variation selector U+FE0F the artifact is rejected. *)
Theorem roundtrip_counterexamples :
  ((do s <- encode (replicate 4096 x00) ".txt"; decode_string s)
   = Ok (replicate 4095 x00, ".txt"%string)
   /\ replicate 4095 x00 <> replicate 4096 x00)
  /\ (do s <- encode [x01; x02; x03] ".avi"; decode_string s)
     = Err (InvalidSizeHeaderChar 0xFE0F).
Proof.
  split; [split|].
  - exact (run_roundtrip false 4096 ".txt" 0x1F4C4 ltac:(lia) eq_refl).
  - intros H. apply (f_equal length) in H. rewrite !length_replicate in H. lia.
  - vm_compute. reflexivity.
Qed.

(** ** Four repetitions of a two-byte motif *)

Lemma pattern_loop_step (fuel : nat) (data pat : list byte) (rc j : nat) :
  (j + 1 <? length data)%nat && bytes_eqb (slice data j (j + 2)) pat && (rc <? 256)%nat = true ->
  pattern_loop (S fuel) data pat rc j = pattern_loop fuel data pat (rc + 1) (j + 2).
Proof. intros H. cbn [pattern_loop]. rewrite H. reflexivity. Qed.

Lemma pattern_loop_stop (fuel : nat) (data pat : list byte) (rc j : nat) :
  (j + 1 <? length data)%nat && bytes_eqb (slice data j (j + 2)) pat && (rc <? 256)%nat = false ->
  pattern_loop fuel data pat rc j = Ok (rc, j).
Proof. intros H. destruct fuel; cbn [pattern_loop]; rewrite H; reflexivity. Qed.

Lemma pattern_branch_four (m1 m2 : byte) :
  pattern_branch [m1; m2; m1; m2; m1; m2; m1; m2] 0
  = Ok (Some (pattern_token m1 m2 4, 8%nat)).
Proof.
  pose proof (int_of_byte_range m1) as R1. pose proof (int_of_byte_range m2) as R2.
  unfold pattern_branch, slice.
  cbn [length Nat.ltb Nat.leb Nat.add Nat.sub drop take bytes_eqb].
  rewrite !byte_eqb_refl. cbn [andb].
  rewrite (pattern_loop_step 255)
    by (unfold slice; cbn [length Nat.ltb Nat.leb Nat.add Nat.sub drop take bytes_eqb];
        rewrite !byte_eqb_refl; reflexivity).
  rewrite (pattern_loop_step 254)
    by (unfold slice; cbn [length Nat.ltb Nat.leb Nat.add Nat.sub drop take bytes_eqb];
        rewrite !byte_eqb_refl; reflexivity).
  rewrite pattern_loop_stop by reflexivity.
  cbn [bind Nat.leb Nat.add]. unfold data_at, getitem. cbn [lookup list_lookup bind].
  rewrite pattern_val_arith by lia.
  rewrite bits_per_char_eq, Z.shiftr_div_pow2, land_ones_mod by lia.
  change (2 ^ 12) with 4096.
  rewrite !int_to_unicode_ok by dlia. reflexivity.
Qed.

Lemma run_branch_short_motif (m1 m2 : byte) (ones : bool) (target : Z) :
  target = int_of_byte (fill_byte ones) ->
  Byte.eqb m1 (fill_byte ones) && Byte.eqb m2 (fill_byte ones) = false ->
  run_branch [m1; m2; m1; m2; m1; m2; m1; m2] 0 (int_of_byte m1) target (run_marker ones)
  = Ok None.
Proof.
  intros Ht Hne.
  rewrite (run_branch_target [m1; m2; m1; m2; m1; m2; m1; m2] 0 m1 ones target eq_refl Ht).
  cbv zeta. rewrite drop_0. cbn [leading].
  destruct (Byte.eqb m1 (fill_byte ones)); [|reflexivity].
  cbn [andb] in Hne. rewrite Hne. reflexivity.
Qed.

Lemma encode_bytes_motif (m1 m2 : byte) :
  Byte.eqb m1 x00 && Byte.eqb m2 x00 = false ->
  Byte.eqb m1 xff && Byte.eqb m2 xff = false ->
  _encode_bytes [m1; m2; m1; m2; m1; m2; m1; m2] = Ok (pattern_token m1 m2 4).
Proof.
  intros Hz Ho. unfold _encode_bytes. cbn [length encode_loop Nat.ltb Nat.leb].
  unfold encode_step, data_at, getitem. cbn [lookup list_lookup bind].
  change zero_run with (run_marker false). change one_run with (run_marker true).
  rewrite (run_branch_short_motif m1 m2 false 0 eq_refl Hz). cbn [bind].
  rewrite (run_branch_short_motif m1 m2 true 0xFF eq_refl Ho). cbn [bind].
  rewrite pattern_branch_four. cbn [bind app]. reflexivity.
Qed.

Lemma max_run_le_length (tb : byte) (l : list byte) : (max_run tb l <= length l)%nat.
Proof.
  induction l as [|b rest IH]; [simpl; lia|].
  pose proof (leading_le_length tb (b :: rest)). cbn [max_run length] in *. lia.
Qed.

Lemma short_runs_of_short_data (data : list byte) :
  (length data < 4096)%nat -> short_runs data.
Proof.
  intros Hlen. pose proof (max_run_le_length x00 data).
  pose proof (max_run_le_length xff data). split; lia.
Qed.

Lemma decode_to_bytes_pattern (p0 p1 : byte) (rc : nat) :
  (rc <= 256)%nat ->
  _decode_to_bytes (pattern_token p0 p1 rc) = Ok (concat (replicate rc [p0; p1])).
Proof.
  intros Hrc. rewrite decode_to_bytes_from.
  pose proof (decode_token [] (TPattern p0 p1 rc) [] [] Hrc) as H.
  rewrite app_nil_r in H. cbn [app length token_chars] in H. rewrite H.
  rewrite decode_from_end by (simpl; lia). cbn [bind result token_decoded token_bits].
  change [int_of_byte p0; int_of_byte p1] with (map int_of_byte [p0; p1]).
  rewrite <- map_concat_replicate. apply bytes_of_ints_map.
Qed.

(** C5, as amended: four repetitions of a two-byte motif are encoded as one
    pattern token (marker, the motif split into its top 4 and low 12 bits,
    the count 4) unless the motif is [00 00] or [FF FF], which the run
    branches take first and encode as one run token of count 8; in every
    case the payload decodes to the same eight bytes, and so does the framed
    artifact under a one-character tag. *)
Theorem motif_repeated_four_times (m1 m2 : byte) :
  let data := [m1; m2; m1; m2; m1; m2; m1; m2] in
  _encode_bytes data
  = Ok (if Byte.eqb m1 x00 && Byte.eqb m2 x00 then [zero_run; PRIVATE_USE_START + 8]
        else if Byte.eqb m1 xff && Byte.eqb m2 xff then [one_run; PRIVATE_USE_START + 8]
        else pattern_token m1 m2 4)
  /\ (do p <- _encode_bytes data; _decode_to_bytes p) = Ok data
  /\ forall e t, lookup_tag e = [t] ->
       (do s <- encode data e; decode_string s) = Ok (data, lookup_extension t).
Proof.
  intros data.
  assert (Henc : _encode_bytes data
    = Ok (if Byte.eqb m1 x00 && Byte.eqb m2 x00 then [zero_run; PRIVATE_USE_START + 8]
          else if Byte.eqb m1 xff && Byte.eqb m2 xff then [one_run; PRIVATE_USE_START + 8]
          else pattern_token m1 m2 4)
    /\ (do p <- _encode_bytes data; _decode_to_bytes p) = Ok data).
  { destruct (Byte.eqb m1 x00 && Byte.eqb m2 x00) eqn:Hz.
    { apply andb_true_iff in Hz. destruct Hz as [E1 E2].
      apply byte_eqb_eq in E1, E2. subst m1 m2.
      pose proof (encode_bytes_run false 8 ltac:(lia)) as H.
      change (replicate 8 (fill_byte false)) with data in H.
      rewrite H. split; [reflexivity|]. cbn [bind].
      rewrite decode_to_bytes_run. reflexivity. }
    destruct (Byte.eqb m1 xff && Byte.eqb m2 xff) eqn:Ho.
    { apply andb_true_iff in Ho. destruct Ho as [E1 E2].
      apply byte_eqb_eq in E1, E2. subst m1 m2.
      pose proof (encode_bytes_run true 8 ltac:(lia)) as H.
      change (replicate 8 (fill_byte true)) with data in H.
      rewrite H. split; [reflexivity|]. cbn [bind].
      rewrite decode_to_bytes_run. reflexivity. }
    unfold data. rewrite (encode_bytes_motif m1 m2 Hz Ho). split; [reflexivity|].
    cbn [bind]. rewrite decode_to_bytes_pattern by lia. reflexivity. }
  destruct Henc as [Henc Hdec]. split; [exact Henc|]. split; [exact Hdec|].
  intros e t Htag. apply roundtrip_short_runs.
  - simpl. lia.
  - apply short_runs_of_short_data. simpl. lia.
  - exact Htag.
Qed.

(** The motif theorem for the motif [41 42] framed under ['.txt']. *)
Lemma motif_repeated_four_times_witness :
  (do s <- encode [x41; x42; x41; x42; x41; x42; x41; x42] ".txt"; decode_string s)
  = Ok ([x41; x42; x41; x42; x41; x42; x41; x42], ".txt"%string).
Proof.
  exact (proj2 (proj2 (motif_repeated_four_times x41 x42)) ".txt"%string 0x1F4C4 eq_refl).
Defined.

(** C5, as stated, fails for the motif [00 00]: the eight bytes are a run
    of zeros, and the payload is one zero-run token, not a pattern token. *)
Lemma zero_motif_is_a_run :
  _encode_bytes [x00; x00; x00; x00; x00; x00; x00; x00] = Ok [zero_run; 0xE008]
  /\ [zero_run; 0xE008] <> pattern_token x00 x00 4.
Proof. split; [reflexivity | discriminate]. Qed.

(** ** Characters outside the alphabet *)

Lemma decode_standard_stray (c : Z) (st : dstate) :
  c < PRIVATE_USE_START \/ PRIVATE_USE_END < c -> decode_standard c st = Ok st.
Proof.
  intros Hc. unfold decode_standard. rewrite unicode_to_int_outside by exact Hc.
  reflexivity.
Qed.

(** The decoding loop passes over a stray character: the cursor moves on by
    one and [result], [bit_buffer] and [bit_count] stay as they are. *)
Lemma decode_step_stray (encoded : str) (i : nat) (c : Z) (st : dstate) :
  encoded !! i = Some c -> stray c -> decode_step encoded i st = Ok ((i + 1)%nat, st).
Proof.
  intros Hi (Hout & Hz & Ho & Hr & _). unfold decode_step.
  rewrite (getitem_lookup _ _ _ Hi). cbn [bind].
  destruct (Z.eqb_spec c zero_run); [contradiction|].
  destruct (Z.eqb_spec c one_run); [contradiction|].
  destruct (Z.eqb_spec c repeat_2); [contradiction|].
  rewrite decode_standard_stray by exact Hout. reflexivity.
Qed.

Lemma decode_run_cons (x : Z) (l : list Z) (i : nat) (fill : Z) (st : dstate) :
  decode_run (x :: l) (S i) fill st
  = (do '(i', st') <- decode_run l i fill st; Ok (S i', st')).
Proof.
  unfold decode_run, getitem. cbn [length].
  change ((x :: l) !! S i) with (l !! i).
  change (S i <? S (length l))%nat with (i <? length l)%nat.
  destruct (i <? length l)%nat; [|reflexivity].
  destruct (l !! i) as [e|]; cbn [bind]; [|reflexivity].
  destruct (_unicode_to_int e); reflexivity.
Qed.

Lemma decode_repeat_cons (x : Z) (l : list Z) (i : nat) (st : dstate) :
  decode_repeat (x :: l) (S i) st
  = (do '(i', st') <- decode_repeat l i st; Ok (S i', st')).
Proof.
  unfold decode_repeat, getitem. cbn [length Nat.add].
  change ((x :: l) !! S i) with (l !! i).
  change ((x :: l) !! S (i + 1)%nat) with (l !! (i + 1)%nat).
  change ((x :: l) !! S (i + 2)%nat) with (l !! (i + 2)%nat).
  change (S (i + 2) <? S (length l))%nat with (i + 2 <? length l)%nat.
  destruct (i + 2 <? length l)%nat; [|reflexivity].
  destruct (l !! i) as [e0|]; cbn [bind]; [|reflexivity].
  destruct (_unicode_to_int e0); cbn [bind]; [|reflexivity].
  destruct (l !! (i + 1)%nat) as [e1|]; cbn [bind]; [|reflexivity].
  destruct (_unicode_to_int e1); cbn [bind]; [|reflexivity].
  destruct (l !! (i + 2)%nat) as [e2|]; cbn [bind]; [|reflexivity].
  destruct (_unicode_to_int e2); reflexivity.
Qed.

(** The decoding loop only looks at the string from its cursor on. *)
Lemma decode_step_cons (x : Z) (l : list Z) (i : nat) (st : dstate) :
  decode_step (x :: l) (S i) st
  = (do '(i', st') <- decode_step l i st; Ok (S i', st')).
Proof.
  unfold decode_step, getitem.
  change ((x :: l) !! S i) with (l !! i).
  destruct (l !! i) as [c|]; cbn [bind]; [|reflexivity].
  cbn [Nat.add]. rewrite !decode_run_cons, decode_repeat_cons.
  destruct (c =? zero_run); [reflexivity|].
  destruct (c =? one_run); [reflexivity|].
  destruct (c =? repeat_2); [reflexivity|].
  destruct (decode_standard c st); reflexivity.
Qed.

Lemma decode_loop_cons (fuel : nat) (x : Z) (l : list Z) (i : nat) (st : dstate) :
  decode_loop fuel (x :: l) (S i) st = decode_loop fuel l i st.
Proof.
  revert i st. induction fuel as [|fuel IH]; intros i st; cbn [decode_loop length];
    change (S i <? S (length l))%nat with (i <? length l)%nat;
    destruct (i <? length l)%nat; try reflexivity.
  rewrite decode_step_cons.
  destruct (decode_step l i st) as [[i' st']|e]; cbn [bind]; [apply IH | reflexivity].
Qed.

Lemma decode_loop_app (fuel : nat) (pre l : list Z) (i : nat) (st : dstate) :
  decode_loop fuel (pre ++ l) (length pre + i) st = decode_loop fuel l i st.
Proof.
  induction pre as [|x pre IH]; [reflexivity|].
  cbn [app length Nat.add]. rewrite decode_loop_cons. exact IH.
Qed.

Lemma decode_from_app (pre l : list Z) (i : nat) (st : dstate) :
  decode_from (pre ++ l) (length pre + i) st = decode_from l i st.
Proof.
  unfold decode_from. rewrite length_app.
  replace (length pre + length l - (length pre + i))%nat with (length l - i)%nat by lia.
  apply decode_loop_app.
Qed.

(** Passing over a stray character is the same as decoding the string
    without it. *)
Lemma decode_from_delete_stray (encoded : list Z) (i : nat) (c : Z) (st : dstate) :
  encoded !! i = Some c -> stray c ->
  decode_from encoded i st = decode_from (delete i encoded) i st.
Proof.
  intros Hi Hc. pose proof (lookup_lt_Some _ _ _ Hi) as Hlen.
  rewrite (decode_from_step encoded i st (i + 1) st Hlen (decode_step_stray _ _ _ _ Hi Hc)).
  rewrite delete_take_drop.
  assert (Hpre : length (take i encoded) = i) by (apply length_take_le; lia).
  pose proof (decode_from_app (take i encoded ++ [c]) (drop (S i) encoded) 0 st) as L.
  pose proof (decode_from_app (take i encoded) (drop (S i) encoded) 0 st) as R.
  rewrite length_app, Hpre, Nat.add_0_r in L. cbn [length] in L.
  rewrite <- app_assoc in L. cbn [app] in L.
  rewrite (take_drop_middle encoded i c Hi) in L.
  rewrite Hpre, Nat.add_0_r in R.
  rewrite L, R. reflexivity.
Qed.

Lemma decode_to_bytes_stray_head (c : Z) (p : str) :
  stray c -> _decode_to_bytes (c :: p) = _decode_to_bytes p.
Proof.
  intros Hc. rewrite !decode_to_bytes_from.
  assert (Hstep : decode_step (c :: p) 0 (DState [] 0 0) = Ok (1%nat, DState [] 0 0))
    by (apply (decode_step_stray (c :: p) 0 c); [reflexivity | exact Hc]).
  rewrite (decode_from_step (c :: p) 0 _ 1 _ ltac:(simpl; lia) Hstep).
  unfold decode_from. cbn [length Nat.sub]. rewrite decode_loop_cons. reflexivity.
Qed.

Lemma size_header_loop_stray (size_header : str) (acc : Z) (c : Z) :
  c ∈ size_header -> c < PRIVATE_USE_START \/ PRIVATE_USE_END < c ->
  exists c', c' ∈ size_header /\ (c' < PRIVATE_USE_START \/ PRIVATE_USE_END < c')
             /\ size_header_loop size_header acc = Err (InvalidSizeHeaderChar c').
Proof.
  revert acc. induction size_header as [|x rest IH]; intros acc Hin Hout.
  - apply elem_of_nil in Hin. contradiction.
  - cbn [size_header_loop]. destruct (_unicode_to_int x) as [v|e] eqn:Hx.
    + apply elem_of_cons in Hin. destruct Hin as [->|Hin].
      * rewrite unicode_to_int_outside in Hx by exact Hout. discriminate.
      * destruct (IH (Z.lor (Z.shiftl acc 12) v) Hin Hout) as (c' & Hin' & Hout' & Hloop).
        exists c'. split; [right; exact Hin' | split; [exact Hout' | exact Hloop]].
    + exists x. split; [left|]. split; [|reflexivity].
      unfold _unicode_to_int, ord in Hx.
      destruct (Z.ltb_spec x PRIVATE_USE_START); [lia|].
      destruct (Z.ltb_spec PRIVATE_USE_END x); [lia | discriminate].
Qed.

Lemma decode_string_stray_after_header (t c3 c2 c1 c0 c : Z) (q : str) :
  stray c -> q <> [] ->
  decode_string (t :: c3 :: c2 :: c1 :: c0 :: c :: q)
  = decode_string (t :: c3 :: c2 :: c1 :: c0 :: q).
Proof.
  intros Hc Hq. destruct q as [|x q]; [contradiction|].
  unfold decode_string, slice, endswith.
  cbn [length Nat.ltb Nat.leb Nat.sub drop take last].
  destruct (size_header_loop [c3; c2; c1; c0] 0) as [n|e]; cbn [bind]; [|reflexivity].
  rewrite !Nat.sub_0_r.
  destruct (last (x :: q)) as [y|]; [destruct (y =? end_marker)|];
    cbn [take]; rewrite decode_to_bytes_stray_head by exact Hc; reflexivity.
Qed.

(** The size header loop stops at the first character outside the Private
    Use Area and names it. *)
Lemma size_header_loop_first_outside (pre rest : list Z) (c acc : Z) :
  Forall (fun x => PRIVATE_USE_START <= x <= PRIVATE_USE_END) pre ->
  c < PRIVATE_USE_START \/ PRIVATE_USE_END < c ->
  size_header_loop (pre ++ c :: rest) acc = Err (InvalidSizeHeaderChar c).
Proof.
  intros Hpre Hc. revert acc. induction Hpre as [|x pre Hx _ IH]; intros acc.
  - cbn [app size_header_loop]. rewrite (unicode_to_int_outside c Hc). reflexivity.
  - cbn [app size_header_loop]. rewrite (unicode_to_int_ok x Hx). apply IH.
Qed.

(** An error of the size header loop is the error of [decode_string] as soon
    as the string has a sixth character. *)
Lemma decode_string_header_raises (t : Z) (header q : list Z) (e : exn) :
  length header = 4%nat -> q <> [] ->
  size_header_loop header 0 = Err e ->
  decode_string (t :: header ++ q) = Err e.
Proof.
  intros Hlen Hq Hloop.
  destruct header as [|c3 [|c2 [|c1 [|c0 [|x header]]]]]; try discriminate.
  destruct q as [|y q]; [contradiction|].
  unfold decode_string, slice. cbn [app length Nat.ltb Nat.leb Nat.sub drop take].
  rewrite ?take_0, Hloop. reflexivity.
Qed.

(** A stray character that is the whole payload is skipped like any other. *)
Lemma decode_string_stray_alone (t c3 c2 c1 c0 c n : Z) :
  stray c -> size_header_loop [c3; c2; c1; c0] 0 = Ok n ->
  decode_string [t; c3; c2; c1; c0; c] = Ok ([], lookup_extension t).
Proof.
  intros Hc Hloop.
  assert (Hend : endswith [c] end_marker = false).
  { unfold endswith. cbn [last]. apply Z.eqb_neq. unfold stray in Hc. tauto. }
  unfold decode_string, slice. cbn [length Nat.ltb Nat.leb Nat.sub drop take].
  rewrite ?take_0, Hloop. cbn [bind]. rewrite Hend.
  rewrite (decode_to_bytes_stray_head c [] Hc).
  change (_decode_to_bytes []) with (@Ok (list byte) []). cbn [bind length].
  unfold lookup_extension.
  destruct (REVERSE_FORMAT_MAP !! [t]); destruct (Z.of_nat 0 >? n);
    rewrite ?take_nil; reflexivity.
Qed.

(** C8, as amended.  A stray character under the cursor of the decoding
    loop is passed over, with the output and the bit buffer left as they
    are, and the loop goes on as on the string without that character, so
    that a stray character at the head of the payload changes nothing in
    what [_decode_to_bytes] returns, and nothing in what [decode_string]
    returns when another character follows it; when it is the last
    character it is skipped all the same (under a valid size header the
    result is the empty buffer), but the string without it has five
    characters only and is rejected as too short.  In a string of six
    characters or more, the first character of the size header that is
    outside the Private Use Area makes [decode_string] raise "Invalid size
    header character" for it. *)
Theorem stray_character_policy :
  (forall (encoded : str) (i : nat) (c : Z) (st : dstate),
      encoded !! i = Some c -> stray c ->
      decode_step encoded i st = Ok ((i + 1)%nat, st)
      /\ decode_from encoded i st = decode_from encoded (i + 1) st
      /\ decode_from encoded i st = decode_from (delete i encoded) i st)
  /\ (forall (c : Z) (p : str), stray c -> _decode_to_bytes (c :: p) = _decode_to_bytes p)
  /\ (forall (t c3 c2 c1 c0 c : Z) (q : str), stray c -> q <> [] ->
        decode_string (t :: c3 :: c2 :: c1 :: c0 :: c :: q)
        = decode_string (t :: c3 :: c2 :: c1 :: c0 :: q))
  /\ (forall (t c3 c2 c1 c0 c n : Z),
        stray c -> size_header_loop [c3; c2; c1; c0] 0 = Ok n ->
        decode_string [t; c3; c2; c1; c0; c] = Ok ([], lookup_extension t)
        /\ decode_string [t; c3; c2; c1; c0] = Err EncodedDataTooShort)
  /\ (forall (t : Z) (pre rest : list Z) (c : Z) (q : str),
        length (pre ++ c :: rest) = 4%nat ->
        Forall (fun x => PRIVATE_USE_START <= x <= PRIVATE_USE_END) pre ->
        c < PRIVATE_USE_START \/ PRIVATE_USE_END < c ->
        q <> [] ->
        decode_string (t :: (pre ++ c :: rest) ++ q) = Err (InvalidSizeHeaderChar c)).
Proof.
  split; [|split; [|split; [|split]]].
  - intros encoded i c st Hi Hc.
    pose proof (decode_step_stray encoded i c st Hi Hc) as Hstep.
    split; [exact Hstep|]. split.
    + apply decode_from_step with (st' := st); [|exact Hstep].
      apply lookup_lt_Some in Hi. exact Hi.
    + apply (decode_from_delete_stray encoded i c st Hi Hc).
  - exact decode_to_bytes_stray_head.
  - exact decode_string_stray_after_header.
  - intros t c3 c2 c1 c0 c n Hc Hloop.
    split; [exact (decode_string_stray_alone t c3 c2 c1 c0 c n Hc Hloop) | reflexivity].
  - intros t pre rest c q Hlen Hpre Hc Hq.
    apply (decode_string_header_raises t (pre ++ c :: rest) q _ Hlen Hq).
    apply (size_header_loop_first_outside pre rest c 0 Hpre Hc).
Qed.

(** The policy theorem for the stray character U+0041: as the first
    character of a payload, as the only character after the size header, and
    in the size header. *)
Lemma stray_character_policy_witness :
  decode_string [0x1F4C4; 0xE000; 0xE000; 0xE000; 0xE003; 0x41; 0xE010; 0xE203; 0x1F3C1]
  = decode_string [0x1F4C4; 0xE000; 0xE000; 0xE000; 0xE003; 0xE010; 0xE203; 0x1F3C1]
  /\ (decode_string [0x1F4C4; 0xE000; 0xE000; 0xE000; 0xE003; 0x41]
      = Ok ([], lookup_extension 0x1F4C4)
      /\ decode_string [0x1F4C4; 0xE000; 0xE000; 0xE000; 0xE003] = Err EncodedDataTooShort)
  /\ decode_string [0x1F4C4; 0xE000; 0x41; 0xE000; 0xE003; 0xE010; 0xE203; 0x1F3C1]
     = Err (InvalidSizeHeaderChar 0x41).
Proof.
  assert (Hstray : stray 0x41).
  { unfold stray, PRIVATE_USE_START, PRIVATE_USE_END, zero_run, one_run, repeat_2,
      escape, end_marker. lia. }
  split; [|split].
  - apply (proj1 (proj2 (proj2 stray_character_policy))); [exact Hstray | discriminate].
  - apply (proj1 (proj2 (proj2 (proj2 stray_character_policy)))
             0x1F4C4 0xE000 0xE000 0xE000 0xE003 0x41 3); [exact Hstray | reflexivity].
  - apply (proj2 (proj2 (proj2 (proj2 stray_character_policy)))
             0x1F4C4 [0xE000] [0xE000; 0xE003] 0x41 [0xE010; 0xE203; 0x1F3C1]).
    + reflexivity.
    + repeat constructor; unfold PRIVATE_USE_START, PRIVATE_USE_END; lia.
    + unfold PRIVATE_USE_START. lia.
    + discriminate.
Defined.

(** C8, as stated, fails in the size header: there a stray character is not
    skipped, [decode_string] raises and returns nothing.  (Nor is a stray
    character skipped when it follows a run marker: it is then read as the
    count, outside any [try].) *)
Lemma stray_character_can_raise :
  stray 0x41
  /\ decode_string [0x1F4C4; 0x41; 0xE000; 0xE000; 0xE003; 0xE010; 0xE203; 0x1F3C1]
     = Err (InvalidSizeHeaderChar 0x41)
  /\ decode_string [0x1F4C4; 0xE000; 0xE000; 0xE000; 0xE004; zero_run; 0x41; 0x1F3C1]
     = Err (OutsidePrivateUse 0x41).
Proof.
  split; [|split; reflexivity].
  unfold stray, PRIVATE_USE_START, PRIVATE_USE_END, zero_run, one_run, repeat_2,
    escape, end_marker. lia.
Qed.

(** ** The standard branch and the bit buffer *)

Lemma decode_token_alone (t : token) (res : list Z) :
  match t with TPattern _ _ rc => (rc <= 256)%nat | _ => True end ->
  decode_from (token_chars t) 0 (DState res 0 0)
  = Ok (DState (res ++ token_decoded t) 0 (token_bits t)).
Proof.
  intros Hrc. pose proof (decode_token [] t [] res Hrc) as H.
  rewrite app_nil_r in H. cbn [app length Nat.add] in H. rewrite H.
  apply decode_from_end. lia.
Qed.

Lemma encode_step_uncompressed (data : list byte) (i : nat) (b1 : byte) :
  data !! i = Some b1 -> uncompressed data i (int_of_byte b1) ->
  encode_step data i = standard_branch data i.
Proof.
  intros H1 (Hz & Ho & Hp). unfold encode_step.
  rewrite (data_at_lookup _ _ _ H1). cbn [bind].
  rewrite Hz. cbn [bind]. rewrite Ho. cbn [bind]. rewrite Hp. reflexivity.
Qed.

Lemma group3_concat24 (b1 b2 b3 : byte) :
  group3 b1 b2 b3
  = [ PRIVATE_USE_START + concat24 b1 b2 b3 / 4096;
      PRIVATE_USE_START + concat24 b1 b2 b3 mod 4096 ].
Proof.
  pose proof (int_of_byte_range b1). pose proof (int_of_byte_range b2).
  pose proof (int_of_byte_range b3).
  unfold group3, concat24. repeat f_equal; dlia.
Qed.

Lemma tail2_top12 (b1 b2 : byte) :
  tail2 b1 b2
  = [ PRIVATE_USE_START + (int_of_byte b1 * 256 + int_of_byte b2) / 16;
      PRIVATE_USE_START + (int_of_byte b2 mod 16) * 256 ].
Proof.
  pose proof (int_of_byte_range b1). pose proof (int_of_byte_range b2).
  unfold tail2. repeat f_equal; dlia.
Qed.

(** C4: where no compressing branch fires, the pass emits for three bytes
    the top and the bottom 12 bits of their 24-bit concatenation, for two
    last bytes the top 12 bits and then the remaining 4 bits above eight
    zero bits, for one last byte the byte above four zero bits; read with an
    empty bit buffer these characters give the bytes back (with one zero
    byte of padding in the two-byte case, four pending zero bits in the
    one-byte case).  The decoder appends the 12 bits of each character at the
    low end of the buffer and takes a byte from the top as long as 8 bits or
    more are held. *)
Theorem standard_branch_bit_packing :
  (forall (data : list byte) (i : nat) (b1 : byte),
      data !! i = Some b1 -> uncompressed data i (int_of_byte b1) ->
      match data !! (i + 1)%nat, data !! (i + 2)%nat with
      | Some b2, Some b3 =>
          let w := concat24 b1 b2 b3 in
          let chars := [PRIVATE_USE_START + w / 4096; PRIVATE_USE_START + w mod 4096] in
          encode_step data i = Ok (chars, (i + 3)%nat)
          /\ forall res, decode_from chars 0 (DState res 0 0)
                         = Ok (DState (res ++ [int_of_byte b1; int_of_byte b2; int_of_byte b3])
                                      0 0)
      | Some b2, None =>
          let chars := [PRIVATE_USE_START + (int_of_byte b1 * 256 + int_of_byte b2) / 16;
                        PRIVATE_USE_START + (int_of_byte b2 mod 16) * 256] in
          encode_step data i = Ok (chars, (i + 2)%nat)
          /\ forall res, decode_from chars 0 (DState res 0 0)
                         = Ok (DState (res ++ [int_of_byte b1; int_of_byte b2; 0]) 0 0)
      | None, _ =>
          let chars := [PRIVATE_USE_START + int_of_byte b1 * 16] in
          encode_step data i = Ok (chars, (i + 1)%nat)
          /\ forall res, decode_from chars 0 (DState res 0 0)
                         = Ok (DState (res ++ [int_of_byte b1]) 0 4)
      end)
  /\ (forall (v : Z) (res : list Z) (buf cnt : Z),
        0 <= v < 4096 ->
        decode_standard (PRIVATE_USE_START + v) (DState res buf cnt)
        = extract_loop (Z.to_nat (cnt + 12)) (DState res (buf * 4096 + v) (cnt + 12)))
  /\ (forall (fuel : nat) (res : list Z) (buf cnt : Z),
        8 <= cnt ->
        extract_loop (S fuel) (DState res buf cnt)
        = extract_loop fuel
            (DState (res ++ [(buf / 2 ^ (cnt - 8)) mod 256]) (buf mod 2 ^ (cnt - 8)) (cnt - 8)))
  /\ (forall (fuel : nat) (st : dstate), bit_count st < 8 -> extract_loop fuel st = Ok st).
Proof.
  split; [|split; [exact decode_standard_packed
                  |split; [exact extract_loop_step | exact extract_loop_done]]].
  intros data i b1 H1 Hunc.
  rewrite (encode_step_uncompressed data i b1 H1 Hunc), (standard_branch_spec data i b1 H1).
  destruct (data !! (i + 1)%nat) as [b2|]; [destruct (data !! (i + 2)%nat) as [b3|]|];
    cbv zeta.
  - rewrite <- group3_concat24. split; [reflexivity|]. intros res.
    apply (decode_token_alone (TGroup3 b1 b2 b3) res I).
  - rewrite <- tail2_top12. split; [reflexivity|]. intros res.
    apply (decode_token_alone (TTail2 b1 b2) res I).
  - split; [reflexivity|]. intros res.
    apply (decode_token_alone (TTail1 b1) res I).
Qed.

(** The packing theorem at the head of [12 34 56 78]: the two characters
    hold [0x123] and [0x456]. *)
Lemma standard_branch_bit_packing_witness :
  encode_step [x12; x34; x56; x78] 0 = Ok ([0xE123; 0xE456], 3%nat).
Proof.
  refine (proj1 (proj1 standard_branch_bit_packing [x12; x34; x56; x78] 0%nat x12 eq_refl _)).
  repeat split; reflexivity.
Defined.

(** * Further properties *)

(** ** The payload as a sequence of tokens *)

Lemma token_at_wf (data : list byte) (i : nat) (t : token) :
  token_at data i t -> token_wf t.
Proof. intros [_ Hside]. destruct t; cbn [token_wf]; try exact I; lia. Qed.

Lemma token_chars_size (data : list byte) (i : nat) (t : token) :
  token_at data i t ->
  (3 * length (token_chars t)
   <= 2 * length (token_source t) + (if terminal t then 2 else 0))%nat.
Proof.
  intros [_ Hside].
  destruct t; cbn [token_chars token_source terminal pattern_token group3 tail2 tail1 length];
    rewrite ?length_replicate, ?length_concat_replicate_2; lia.
Qed.

Lemma token_chars_alphabet (t : token) :
  token_wf t -> Forall payload_char (token_chars t).
Proof.
  intros Hwf. unfold payload_char.
  destruct t as [ones c|p0 p1 rc|b1 b2 b3|b1 b2|b1];
    cbn [token_chars pattern_token group3 tail2 tail1 token_wf] in *.
  - pose proof (stored_count_range c).
    constructor; [destruct ones; cbn [run_marker]; auto|].
    constructor; [left; lia | constructor].
  - pose proof (int_of_byte_range p0). pose proof (int_of_byte_range p1).
    constructor; [auto|]. constructor; [left; dlia|].
    constructor; [left; dlia|]. constructor; [left; lia | constructor].
  - pose proof (int_of_byte_range b1). pose proof (int_of_byte_range b2).
    pose proof (int_of_byte_range b3).
    constructor; [left; dlia|]. constructor; [left; dlia | constructor].
  - pose proof (int_of_byte_range b1). pose proof (int_of_byte_range b2).
    constructor; [left; dlia|]. constructor; [left; dlia | constructor].
  - pose proof (int_of_byte_range b1).
    constructor; [left; lia | constructor].
Qed.

(** The encoding loop cuts the data from [i] on into tokens: the payload is
    the characters of the tokens, the bytes the tokens stand for are the
    data, and three characters cost at least two bytes, up to the trailing
    token. *)
Lemma encode_from_tokens (data : list byte) (n : nat) :
  forall i, (length data - i <= n)%nat -> (i <= length data)%nat ->
  exists ts,
    encode_from data i = Ok (concat (map token_chars ts))
    /\ concat (map token_source ts) = drop i data
    /\ Forall token_wf ts
    /\ (3 * length (concat (map token_chars ts)) <= 2 * (length data - i) + 2)%nat.
Proof.
  induction n as [|n IH]; intros i Hn Hi.
  - exists []. split; [apply encode_from_end; lia|].
    split; [rewrite drop_ge by lia; reflexivity|]. split; [constructor | simpl; lia].
  - destruct (Nat.eq_dec i (length data)) as [->|Hne]; [apply IH; lia|].
    assert (Hlt : (i < length data)%nat) by lia.
    destruct (encode_step_spec data i Hlt) as (t & Hstep & Hat).
    pose proof (token_at_bounds data i t Hat) as [Hpos Hend].
    pose proof (encode_from_step data i t Hlt Hstep Hat) as Henc.
    pose proof (token_chars_size data i t Hat) as Hsize.
    destruct (IH (i + length (token_source t))%nat) as (ts & Hts & Hsrc & Hwf & Hbound);
      [lia | lia |].
    exists (t :: ts). cbn [map concat].
    split; [rewrite Henc, Hts; reflexivity|].
    split.
    { rewrite Hsrc. destruct Hat as [Htake _].
      rewrite <- (take_drop (length (token_source t)) (drop i data)).
      rewrite Htake, drop_drop. reflexivity. }
    split; [constructor; [apply (token_at_wf data i), Hat | exact Hwf]|].
    rewrite length_app.
    destruct (terminal t) eqn:Hterm; [|lia].
    pose proof (token_terminal_end data i t Hat Hterm) as Hlast.
    rewrite Hlast, encode_from_end in Hts by lia.
    injection Hts as Hnil. rewrite <- Hnil. simpl. lia.
Qed.

Lemma Forall_concat_map {A B : Type} (P : B -> Prop) (f : A -> list B) (l : list A) :
  Forall (fun x => Forall P (f x)) l -> Forall P (concat (map f l)).
Proof.
  induction 1 as [|x l Hx _ IH]; simpl; [constructor|].
  apply Forall_app. split; assumption.
Qed.

(** X1: the encoder never raises, and the payload is a sequence of tokens
    that stand, in order, for the whole of the data. *)
Theorem encode_bytes_partitions_data (data : list byte) :
  exists ts,
    _encode_bytes data = Ok (concat (map token_chars ts))
    /\ concat (map token_source ts) = data
    /\ Forall token_wf ts.
Proof.
  destruct (encode_from_tokens data (length data) 0) as (ts & Henc & Hsrc & Hwf & _);
    [lia | lia |].
  exists ts. rewrite encode_bytes_from, drop_0 in *. auto.
Qed.

(** X2: the payload never has more than [(2 n + 2) / 3] characters for [n]
    bytes. *)
Theorem encode_bytes_size_bound (data : list byte) :
  exists p, _encode_bytes data = Ok p /\ (3 * length p <= 2 * length data + 2)%nat.
Proof.
  destruct (encode_from_tokens data (length data) 0) as (ts & Henc & _ & _ & Hbound);
    [lia | lia |].
  eexists. rewrite encode_bytes_from. split; [exact Henc | lia].
Qed.

Lemma payload_char_not_end (c : Z) : payload_char c -> c <> end_marker /\ c <> escape.
Proof.
  unfold payload_char, PRIVATE_USE_START, zero_run, one_run, repeat_2, end_marker, escape.
  lia.
Qed.

(** X3: every character of the payload is one of the three markers or a
    character of U+E000..U+EFFF; the end marker and the escape character
    never occur in it. *)
Theorem encode_bytes_alphabet (data : list byte) :
  exists p,
    _encode_bytes data = Ok p
    /\ Forall payload_char p /\ (end_marker ∉ p) /\ (escape ∉ p).
Proof.
  destruct (encode_from_tokens data (length data) 0) as (ts & Henc & _ & Hwf & _);
    [lia | lia |].
  eexists. rewrite encode_bytes_from. split; [exact Henc|].
  assert (Hall : Forall payload_char (concat (map token_chars ts))).
  { apply Forall_concat_map. eapply Forall_impl; [exact Hwf|].
    intros t Ht. apply token_chars_alphabet, Ht. }
  split; [exact Hall|].
  split; intros Hin; apply (proj1 (Forall_forall _ _) Hall), payload_char_not_end in Hin;
    destruct Hin; congruence.
Qed.

(** ** The state of the decoding loop *)

Lemma unicode_to_int_private_use (c v : Z) :
  _unicode_to_int c = Ok v -> private_use c /\ v = c - PRIVATE_USE_START.
Proof.
  unfold _unicode_to_int, ord, private_use.
  destruct (Z.ltb_spec c PRIVATE_USE_START); [discriminate|].
  destruct (Z.ltb_spec PRIVATE_USE_END c); [discriminate|].
  intros [= <-]. lia.
Qed.

Lemma private_use_not_marker (c : Z) : private_use c -> ~ marker c.
Proof.
  unfold private_use, marker, PRIVATE_USE_START, PRIVATE_USE_END, zero_run, one_run, repeat_2.
  lia.
Qed.

(** A character of the Private Use Area adds 12 bits: one byte comes out
    when the buffer was empty, two when it held 4 bits; any other character
    leaves the state alone. *)
Lemma decode_standard_buffer (c : Z) (st : dstate) :
  buffer_ok st ->
  exists st',
    decode_standard c st = Ok st'
    /\ buffer_ok st'
    /\ (private_use c ->
        8 * Z.of_nat (length (result st')) + bit_count st'
        = 8 * Z.of_nat (length (result st)) + bit_count st + 12)
    /\ (~ private_use c -> st' = st).
Proof.
  intros Hst. unfold decode_standard.
  destruct (_unicode_to_int c) as [v|e] eqn:Hc.
  - apply unicode_to_int_private_use in Hc. destruct Hc as [Hpu _].
    destruct st as [res buf cnt]. unfold buffer_ok in Hst.
    cbn [result bit_buffer bit_count] in *.
    rewrite bits_per_char_eq. set (B := Z.lor (Z.shiftl buf 12) v).
    destruct Hst as [[-> ->]|[-> Hbuf]]; cbn [bit_count bit_buffer] in *.
    + change (Z.to_nat (0 + 12)) with 12%nat. change (0 + 12) with 12.
      rewrite extract_loop_step by lia. change (12 - 8) with 4.
      rewrite extract_loop_done by (simpl; lia).
      eexists. split; [reflexivity|]. cbn [result bit_buffer bit_count].
      split; [right; split; [reflexivity | apply Z.mod_pos_bound; lia]|].
      split; [intros _; rewrite length_app; simpl; lia | contradiction].
    + change (Z.to_nat (4 + 12)) with 16%nat. change (4 + 12) with 16.
      rewrite extract_loop_step by lia. change (16 - 8) with 8.
      rewrite extract_loop_step by lia. change (8 - 8) with 0.
      rewrite extract_loop_done by (simpl; lia).
      eexists. split; [reflexivity|]. cbn [result bit_buffer bit_count].
      split; [left; split; [reflexivity | change (2 ^ 0) with 1; apply Z.mod_1_r]|].
      split; [intros _; rewrite !length_app; simpl; lia | contradiction].
  - exists st. split; [reflexivity|]. split; [exact Hst|].
    split; [|reflexivity].
    intros Hpu. rewrite unicode_to_int_ok in Hc by exact Hpu. discriminate.
Qed.

Lemma decode_run_buffer (encoded : str) (i : nat) (fill : Z) (st : dstate)
    (i' : nat) (st' : dstate) :
  decode_run encoded i fill st = Ok (i', st') ->
  bit_buffer st' = bit_buffer st /\ bit_count st' = bit_count st.
Proof.
  unfold decode_run. destruct (i <? length encoded)%nat; [|intros [= _ <-]; auto].
  repeat bind_ok_or_fail. intros [= _ <-]. auto.
Qed.

Lemma decode_repeat_buffer (encoded : str) (i : nat) (st : dstate)
    (i' : nat) (st' : dstate) :
  decode_repeat encoded i st = Ok (i', st') ->
  bit_buffer st' = bit_buffer st /\ bit_count st' = bit_count st.
Proof.
  unfold decode_repeat. destruct (i + 2 <? length encoded)%nat; [|intros [= _ <-]; auto].
  repeat bind_ok_or_fail. intros [= _ <-]. auto.
Qed.

Lemma buffer_ok_same (st st' : dstate) :
  bit_buffer st' = bit_buffer st /\ bit_count st' = bit_count st ->
  buffer_ok st -> buffer_ok st'.
Proof. unfold buffer_ok. intros [-> ->]. auto. Qed.

Lemma decode_step_buffer (encoded : str) (i : nat) (st : dstate) (i' : nat) (st' : dstate) :
  buffer_ok st -> decode_step encoded i st = Ok (i', st') -> buffer_ok st'.
Proof.
  intros Hst. unfold decode_step. bind_ok_or_fail.
  destruct (a =? zero_run);
    [intros H; apply decode_run_buffer in H; eapply buffer_ok_same; eauto|].
  destruct (a =? one_run);
    [intros H; apply decode_run_buffer in H; eapply buffer_ok_same; eauto|].
  destruct (a =? repeat_2);
    [intros H; apply decode_repeat_buffer in H; eapply buffer_ok_same; eauto|].
  destruct (decode_standard_buffer a st Hst) as (st1 & -> & Hok & _). cbn [bind].
  intros [= _ <-]. exact Hok.
Qed.

(** X4: between two passes of the decoding loop the bit buffer holds no
    whole byte: [bit_count] is 0, with an empty buffer, or 4, with a buffer
    below 16. *)
Theorem bit_buffer_invariant (fuel : nat) (encoded : str) (i : nat) (st st' : dstate) :
  buffer_ok st -> decode_loop fuel encoded i st = Ok st' -> buffer_ok st'.
Proof.
  revert i st. induction fuel as [|fuel IH]; intros i st Hst; cbn [decode_loop];
    destruct (i <? length encoded)%nat; try discriminate; try (intros [= <-]; exact Hst).
  destruct (decode_step encoded i st) as [[i1 st1]|e] eqn:Hstep; cbn [bind]; [|discriminate].
  apply IH. eapply decode_step_buffer; eauto.
Qed.

Lemma bit_buffer_invariant_witness :
  buffer_ok (DState [0x12; 0x34; 0x56; 0x78] 9 4).
Proof.
  apply (bit_buffer_invariant 3 [0xE123; 0xE456; 0xE789] 0 (DState [] 0 0)).
  - left. split; reflexivity.
  - reflexivity.
Defined.

(** ** Strings of private-use characters *)

Lemma decode_step_private_use (encoded : str) (i : nat) (c : Z) (st : dstate) :
  encoded !! i = Some c -> private_use c ->
  decode_step encoded i st = (do st' <- decode_standard c st; Ok ((i + 1)%nat, st')).
Proof.
  intros Hi Hc. apply private_use_not_marker in Hc. unfold marker in Hc.
  unfold decode_step. rewrite (getitem_lookup _ _ _ Hi). cbn [bind].
  destruct (Z.eqb_spec c zero_run); [tauto|].
  destruct (Z.eqb_spec c one_run); [tauto|].
  destruct (Z.eqb_spec c repeat_2); [tauto|].
  reflexivity.
Qed.

Lemma decode_from_private_use (l : list Z) (st : dstate) :
  Forall private_use l -> buffer_ok st ->
  exists st',
    decode_from l 0 st = Ok st'
    /\ buffer_ok st'
    /\ 8 * Z.of_nat (length (result st')) + bit_count st'
       = 8 * Z.of_nat (length (result st)) + bit_count st + 12 * Z.of_nat (length l).
Proof.
  intros Hl. revert st. induction Hl as [|c l Hc _ IH]; intros st Hst.
  - exists st. split; [apply decode_from_end; simpl; lia|]. split; [exact Hst | simpl; lia].
  - destruct (decode_standard_buffer c st Hst) as (st1 & Hstd & Hst1 & Hbits & _).
    specialize (Hbits Hc).
    assert (Hstep : decode_step (c :: l) 0 st = Ok (1%nat, st1)).
    { rewrite (decode_step_private_use (c :: l) 0 c st eq_refl Hc), Hstd. reflexivity. }
    rewrite (decode_from_step (c :: l) 0 st 1 st1 ltac:(simpl; lia) Hstep).
    pose proof (decode_from_app [c] l 0 st1) as Happ. cbn [app length Nat.add] in Happ.
    rewrite Happ.
    destruct (IH st1 Hst1) as (st' & Hdec & Hok & Hlen).
    exists st'. split; [exact Hdec|]. split; [exact Hok|].
    cbn [length]. lia.
Qed.

(** X5: a string of [k] private-use characters always decodes, to
    [3 k / 2] bytes (rounded down): each character carries 12 bits. *)
Theorem decode_to_bytes_private_use_length (l : list Z) :
  Forall private_use l ->
  exists d, _decode_to_bytes l = Ok d /\ length d = (3 * length l / 2)%nat.
Proof.
  intros Hl.
  destruct (decode_from_private_use l (DState [] 0 0) Hl) as (st & Hdec & Hok & Hlen);
    [left; split; reflexivity|].
  pose proof (decode_loop_total (length l) l 0 (DState [] 0 0) ltac:(lia)
                ltac:(constructor)) as Hbytes.
  unfold decode_from in Hdec. rewrite Nat.sub_0_r in Hdec. rewrite Hdec in Hbytes.
  destruct (bytes_of_ints_total (result st) Hbytes) as (d & Hd & Hmap).
  exists d. split.
  - unfold _decode_to_bytes. rewrite Hdec. exact Hd.
  - apply (f_equal length) in Hmap. rewrite length_map in Hmap. rewrite Hmap.
    cbn [result bit_count length] in Hlen.
    assert (Hcnt : bit_count st = 0 \/ bit_count st = 4)
      by (destruct Hok as [[-> _]|[-> _]]; auto).
    apply Nat2Z.inj. rewrite Nat2Z.inj_div, Nat2Z.inj_mul.
    change (Z.of_nat 2) with 2. change (Z.of_nat 3) with 3. dlia.
Qed.

Lemma decode_to_bytes_private_use_length_witness :
  exists d, _decode_to_bytes [0xE123; 0xF8FF; 0xE789] = Ok d
            /\ length d = (3 * 3 / 2)%nat.
Proof.
  apply (decode_to_bytes_private_use_length [0xE123; 0xF8FF; 0xE789]).
  repeat constructor; unfold PRIVATE_USE_START, PRIVATE_USE_END; lia.
Defined.

(** ** What makes the decoder raise *)









(** ** [encode_file] as a whole *)

(** On an existing path [encode_file] is the payload in its frame, with
    statistics that name the extension as it was given. *)
Lemma encode_file_existing (filepath : path) (max_bytes : option Z) :
  path_exists filepath = true ->
  encode_file filepath max_bytes
  = (do payload <- _encode_bytes (read_file (path_contents filepath) max_bytes);
     do h <- size_header_of
               (Z.of_nat (length (read_file (path_contents filepath) max_bytes)));
     Ok (lookup_tag (path_suffix_lower filepath) ++ h ++ payload ++ [end_marker],
         Stats (length (read_file (path_contents filepath) max_bytes))
               (length (lookup_tag (path_suffix_lower filepath) ++ h ++ payload
                        ++ [end_marker]))
               bits_per_char (path_suffix_lower filepath)
               (lookup_tag (path_suffix_lower filepath)))).
Proof.
  intros Hex. unfold encode_file, lookup_tag. rewrite Hex. cbn [negb].
  destruct (FORMAT_MAP !! path_suffix_lower filepath) as [c|] eqn:Hc; cbn [default].
  - reflexivity.
  - destruct (String.eqb_spec (path_suffix_lower filepath) "") as [E|_]; [|reflexivity].
    rewrite E in Hc. vm_compute in Hc. discriminate.
Qed.

(** X8: the statistics of a successful [encode_file]: the byte count of
    the data read, the length of the artifact (tag, four size characters,
    payload, end marker), the extension as given (the ['.unknown']
    substitute is never used, [''] being registered) and the tag; the
    payload obeys the 2/3 bound. *)
Theorem encode_file_statistics (filepath : path) (max_bytes : option Z)
    (s : str) (st : stats) :
  read_size_ok max_bytes ->
  encode_file filepath max_bytes = Ok (s, st) ->
  let data := read_file (path_contents filepath) max_bytes in
  let tag := lookup_tag (path_suffix_lower filepath) in
  exists h payload,
    s = tag ++ h ++ payload ++ [end_marker]
    /\ length h = 4%nat
    /\ _encode_bytes data = Ok payload
    /\ original_bytes st = length data
    /\ encoded_chars st = length s
    /\ encoded_chars st = (length tag + 5 + length payload)%nat
    /\ (3 * length payload <= 2 * original_bytes st + 2)%nat
    /\ stats_bits_per_char st = 12
    /\ format st = path_suffix_lower filepath
    /\ format_emoji st = tag.
Proof.
  intros _ Henc data tag. subst data tag.
  destruct (path_exists filepath) eqn:Hex;
    [|unfold encode_file in Henc; rewrite Hex in Henc; discriminate].
  rewrite (encode_file_existing filepath max_bytes Hex) in Henc.
  destruct (encode_from_tokens (read_file (path_contents filepath) max_bytes)
              (length (read_file (path_contents filepath) max_bytes)) 0)
    as (ts & Hp & _ & _ & Hbound); [lia | lia |].
  rewrite <- encode_bytes_from in Hp. rewrite Hp in Henc. cbn [bind] in Henc.
  rewrite size_header_of_spec in Henc. cbn [bind] in Henc.
  pose proof (f_equal (fun r => match r with Ok x => fst x | Err _ => s end) Henc) as Hs.
  pose proof (f_equal (fun r => match r with Ok x => snd x | Err _ => st end) Henc) as Hst.
  cbv beta iota in Hs, Hst. cbn [fst snd] in Hs, Hst. clear Henc. subst s st.
  eexists. eexists. split; [reflexivity|].
  cbn [original_bytes encoded_chars stats_bits_per_char format format_emoji].
  split; [reflexivity|]. split; [exact Hp|]. split; [reflexivity|].
  split; [reflexivity|]. split; [rewrite !length_app; cbn [length]; lia|].
  split; [lia|]. split; [reflexivity|]. split; reflexivity.
Qed.

Lemma encode_file_statistics_witness :
  exists h payload,
    [0x1F4C4; 0xE000; 0xE000; 0xE000; 0xE003; 0xE010; 0xE203; 0x1F3C1]
    = lookup_tag ".txt" ++ h ++ payload ++ [end_marker]
    /\ length h = 4%nat.
Proof.
  destruct (encode_file_statistics (Path true ".txt" [x01; x02; x03]) None
              [0x1F4C4; 0xE000; 0xE000; 0xE000; 0xE003; 0xE010; 0xE203; 0x1F3C1]
              (Stats 3 8 12 ".txt" [0x1F4C4]) I ltac:(vm_compute; reflexivity))
    as (h & payload & Hs & Hh & _).
  exists h, payload. split; [exact Hs | exact Hh].
Defined.




(** X10: the lossless case.  A buffer of fewer than 2^48 bytes without a run
    of 4096 [0x00] or 4096 [0xFF] bytes, written under a one-character tag,
    comes back byte for byte, with the extension the reverse map holds for
    the tag. *)
Theorem lossless_round_trip (b : list byte) (e : string) (t : Z) :
  Z.of_nat (length b) < 2 ^ 48 ->
  (max_run x00 b < 4096)%nat -> (max_run xff b < 4096)%nat ->
  lookup_tag e = [t] ->
  (do s <- encode b e; decode_string s) = Ok (b, lookup_extension t).
Proof.
  intros Hlen Hz Ho Htag. apply roundtrip_short_runs; [exact Hlen | split; assumption | exact Htag].
Qed.

Lemma lossless_round_trip_witness :
  (do s <- encode [x00; x00; x00; x00; x00; xff; x07; x07; x07; x07; x07; x07; x2a] ".py";
   decode_string s)
  = Ok ([x00; x00; x00; x00; x00; xff; x07; x07; x07; x07; x07; x07; x2a], ".py"%string).
Proof.
  apply (lossless_round_trip
           [x00; x00; x00; x00; x00; xff; x07; x07; x07; x07; x07; x07; x2a] ".py" 0x1F40D).
  - reflexivity.
  - simpl. lia.
  - simpl. lia.
  - reflexivity.
Defined.

(** ** The size header *)

(** X11: the size header is four private-use characters from which
    [decode_string] reads back the byte count modulo 2^48. *)
Theorem size_header_round_trip (n : Z) :
  0 <= n ->
  exists h,
    size_header_of n = Ok h
    /\ length h = 4%nat
    /\ Forall (fun c => PRIVATE_USE_START <= c < PRIVATE_USE_START + 4096) h
    /\ size_header_loop h 0 = Ok (n mod 2 ^ 48).
Proof.
  intros Hn. pose proof (size_header_roundtrip n Hn) as H.
  rewrite size_header_of_spec in H |- *. cbn [bind] in H.
  eexists. split; [reflexivity|]. split; [reflexivity|]. split; [|exact H].
  repeat constructor;
    match goal with |- context [?x mod 4096] => pose proof (Z.mod_pos_bound x 4096); lia end.
Qed.

Lemma size_header_round_trip_witness :
  exists h,
    size_header_of 70000 = Ok h
    /\ length h = 4%nat
    /\ Forall (fun c => PRIVATE_USE_START <= c < PRIVATE_USE_START + 4096) h
    /\ size_header_loop h 0 = Ok (70000 mod 2 ^ 48).
Proof. apply (size_header_round_trip 70000). lia. Defined.

(** ** [decode_string] as a whole *)

Lemma decode_string_long (encoded : list Z) (t : Z) :
  (6 <= length encoded)%nat -> head encoded = Some t ->
  decode_string encoded
  = (do n <- size_header_loop (slice encoded 1 5) 0;
     do d <- _decode_to_bytes (payload_of encoded);
     Ok (if Z.of_nat (length d) >? n then take (Z.to_nat n) d else d,
         lookup_extension t)).
Proof.
  intros Hlen Hhd. destruct encoded as [|x rest]; [discriminate|].
  injection Hhd as ->. unfold decode_string, payload_of, lookup_extension.
  destruct (Nat.ltb_spec (length (t :: rest)) 6) as [H|_]; [lia|].
  destruct (REVERSE_FORMAT_MAP !! [t]); reflexivity.
Qed.

Lemma size_header_loop_nonneg (size_header : list Z) (acc n : Z) :
  0 <= acc -> size_header_loop size_header acc = Ok n -> 0 <= n.
Proof.
  revert acc. induction size_header as [|c rest IH]; intros acc Hacc; cbn [size_header_loop].
  - intros [= <-]. exact Hacc.
  - destruct (_unicode_to_int c) as [v|e] eqn:Hc; [|discriminate].
    apply IH. apply Z.lor_nonneg. split; [apply Z.shiftl_nonneg; exact Hacc|].
    unfold _unicode_to_int, ord in Hc.
    destruct (Z.ltb_spec c PRIVATE_USE_START); [discriminate|].
    destruct (Z.ltb_spec PRIVATE_USE_END c); [discriminate|].
    cbn [orb] in Hc. injection Hc as <-. lia.
Qed.





Lemma decode_string_ok_length (encoded : list Z) (r : list byte * string) :
  decode_string encoded = Ok r -> (6 <= length encoded)%nat.
Proof.
  destruct encoded as [|t rest]; [discriminate|]. unfold decode_string.
  destruct (Nat.ltb_spec (length (t :: rest)) 6) as [_|H]; [discriminate | auto].
Qed.


(** X13: the declared size only ever shortens the result.  A successful
    [decode_string] returns the first [n] bytes of what the payload decodes
    to, [n] being the number in the size header; it never pads, so the result
    has at most [n] bytes. *)
Theorem decode_string_truncates (encoded : list Z) (d : list byte) (ext : string) :
  decode_string encoded = Ok (d, ext) ->
  exists t n full,
    head encoded = Some t /\ ext = lookup_extension t
    /\ size_header_loop (slice encoded 1 5) 0 = Ok n /\ 0 <= n
    /\ _decode_to_bytes (payload_of encoded) = Ok full
    /\ d = take (Z.to_nat n) full
    /\ Z.of_nat (length d) <= n.
Proof.
  intros H. pose proof (decode_string_ok_length encoded _ H) as Hlen.
  destruct encoded as [|t rest]; [simpl in Hlen; lia|].
  rewrite (decode_string_long (t :: rest) t Hlen eq_refl) in H.
  destruct (size_header_loop (slice (t :: rest) 1 5) 0) as [n|e] eqn:Hsize;
    cbn [bind] in H; [|discriminate].
  destruct (_decode_to_bytes (payload_of (t :: rest))) as [full|e] eqn:Hdec;
    cbn [bind] in H; [|discriminate].
  pose proof (size_header_loop_nonneg _ 0 n ltac:(lia) Hsize) as Hn.
  injection H as Hd <-.
  exists t, n, full. split; [reflexivity|]. split; [reflexivity|]. split; [reflexivity|].
  split; [exact Hn|]. split; [reflexivity|].
  destruct (Z.gtb_spec (Z.of_nat (length full)) n) as [Hgt|Hle]; subst d.
  - split; [reflexivity|]. rewrite length_take. lia.
  - split; [rewrite take_ge by lia; reflexivity | exact Hle].
Qed.

Lemma decode_string_truncates_witness :
  exists t n full,
    head [0x1F4C4; 0xE000; 0xE000; 0xE000; 0xE002; 0xE010; 0xE203; 0x1F3C1] = Some t
    /\ ".txt"%string = lookup_extension t
    /\ size_header_loop
         (slice [0x1F4C4; 0xE000; 0xE000; 0xE000; 0xE002; 0xE010; 0xE203; 0x1F3C1] 1 5) 0
       = Ok n
    /\ 0 <= n
    /\ _decode_to_bytes
         (payload_of [0x1F4C4; 0xE000; 0xE000; 0xE000; 0xE002; 0xE010; 0xE203; 0x1F3C1])
       = Ok full
    /\ [x01; x02] = take (Z.to_nat n) full
    /\ Z.of_nat (length [x01; x02]) <= n.
Proof.
  apply (decode_string_truncates
           [0x1F4C4; 0xE000; 0xE000; 0xE000; 0xE002; 0xE010; 0xE203; 0x1F3C1]
           [x01; x02] ".txt").
  vm_compute. reflexivity.
Defined.

(** X14: the end marker is optional on a non-empty payload and carries the
    empty one.  [decode_string] gives the same result with and without a
    final end marker when the payload is not empty and does not itself end in
    the marker; with an empty payload the marker is the sixth character, and
    without it the string is rejected as too short whatever its header. *)
Theorem end_marker_optional (t c3 c2 c1 c0 : Z) (p : list Z) :
  (p <> [] -> last p <> Some end_marker ->
   decode_string (t :: c3 :: c2 :: c1 :: c0 :: p ++ [end_marker])
   = decode_string (t :: c3 :: c2 :: c1 :: c0 :: p))
  /\ decode_string [t; c3; c2; c1; c0] = Err EncodedDataTooShort.
Proof.
  split; [|reflexivity].
  intros Hp Hlast. destruct p as [|x q]; [contradiction|].
  rewrite (decode_string_long (t :: c3 :: c2 :: c1 :: c0 :: (x :: q) ++ [end_marker]) t)
    by (cbn [length app]; lia || reflexivity).
  rewrite (decode_string_long (t :: c3 :: c2 :: c1 :: c0 :: x :: q) t)
    by (cbn [length]; lia || reflexivity).
  assert (Hend : endswith (x :: q) end_marker = false).
  { unfold endswith. destruct (last (x :: q)) as [y|]; [|reflexivity].
    apply Z.eqb_neq. congruence. }
  assert (Hpay : payload_of (t :: c3 :: c2 :: c1 :: c0 :: (x :: q) ++ [end_marker])
                 = payload_of (t :: c3 :: c2 :: c1 :: c0 :: x :: q)).
  { unfold payload_of.
    change (drop 5 (t :: c3 :: c2 :: c1 :: c0 :: (x :: q) ++ [end_marker]))
      with ((x :: q) ++ [end_marker]).
    change (drop 5 (t :: c3 :: c2 :: c1 :: c0 :: x :: q)) with (x :: q).
    cbv zeta. rewrite endswith_snoc, Hend, length_app. cbn [length].
    rewrite Nat.add_sub. apply (take_app_length (x :: q)). }
  rewrite Hpay. reflexivity.
Qed.

Lemma end_marker_optional_witness :
  decode_string ([0x1F4C4; 0xE000; 0xE000; 0xE000; 0xE003; 0xE010; 0xE203] ++ [end_marker])
  = decode_string [0x1F4C4; 0xE000; 0xE000; 0xE000; 0xE003; 0xE010; 0xE203].
Proof.
  apply (proj1 (end_marker_optional 0x1F4C4 0xE000 0xE000 0xE000 0xE003 [0xE010; 0xE203])).
  - discriminate.
  - vm_compute. discriminate.
Defined.

(** X15: whatever the data, an artifact written under a one-character tag
    is accepted by [decode_string]: no error is raised, the extension is the
    one the reverse map holds for the tag, and for fewer than 2^48 bytes the
    result is never longer than the data. *)
Theorem decode_accepts_encoded (b : list byte) (e : string) (t : Z) :
  lookup_tag e = [t] -> Z.of_nat (length b) < 2 ^ 48 ->
  exists s d,
    encode b e = Ok s /\ decode_string s = Ok (d, lookup_extension t)
    /\ (length d <= length b)%nat.
Proof.
  intros Htag Hlen. rewrite encode_spec, Htag.
  destruct (payload_decodes b) as (p & full & -> & Hfull & _). cbn [bind].
  pose proof (size_header_roundtrip (Z.of_nat (length b)) ltac:(lia)) as Hsize.
  rewrite size_header_of_spec in Hsize |- *. cbn [bind] in Hsize |- *.
  rewrite (Z.mod_small (Z.of_nat (length b)) (2 ^ 48)) in Hsize by lia.
  eexists. eexists. split; [reflexivity|]. cbn [app].
  rewrite (decode_string_frame t _ _ _ _ p _ Hsize), Hfull. cbn [bind].
  split; [reflexivity|].
  destruct (Z.gtb_spec (Z.of_nat (length full)) (Z.of_nat (length b))); [|lia].
  rewrite length_take. lia.
Qed.

Lemma decode_accepts_encoded_witness :
  exists s d,
    encode (replicate 5 x00 ++ [x2a]) ".txt" = Ok s
    /\ decode_string s = Ok (d, lookup_extension 0x1F4C4)
    /\ (length d <= length (replicate 5 x00 ++ [x2a]))%nat.
Proof.
  apply (decode_accepts_encoded (replicate 5 x00 ++ [x2a]) ".txt" 0x1F4C4).
  - reflexivity.
  - reflexivity.
Defined.

(** ** The alphabet, from the decoder's side *)

(** X16: [_unicode_to_int] accepts the whole Private Use Area, 6400
    characters, and [_int_to_unicode] gives the character back for the first
    4096 only: on U+F000..U+F8FF the value is 4096 or more and
    [_int_to_unicode] raises its range error. *)
Theorem unicode_to_int_then_int_to_unicode (c : Z) :
  private_use c ->
  (do v <- _unicode_to_int c; _int_to_unicode v)
  = if c <? PRIVATE_USE_START + values_per_char then Ok c
    else Err (ValueOutOfRange (c - PRIVATE_USE_START)).
Proof.
  unfold private_use. intros Hc. rewrite unicode_to_int_ok by exact Hc. cbn [bind].
  rewrite values_per_char_eq.
  destruct (Z.ltb_spec c (PRIVATE_USE_START + 4096)) as [Hlt|Hge].
  - rewrite int_to_unicode_ok by lia. f_equal. lia.
  - apply int_to_unicode_too_large. lia.
Qed.

Lemma unicode_to_int_then_int_to_unicode_witness :
  (do v <- _unicode_to_int 0xF123; _int_to_unicode v) = Err (ValueOutOfRange 0x1123).
Proof.
  apply (unicode_to_int_then_int_to_unicode 0xF123).
  unfold private_use, PRIVATE_USE_START, PRIVATE_USE_END. lia.
Defined.

(** ** The catalog *)

Lemma last_value_elem {K V : Type} `{EqDecision K} (k : K) (v : V) (items : list (K * V)) :
  last_value k items = Some v -> (k, v) ∈ items.
Proof.
  induction items as [|[k' v'] rest IH]; cbn [last_value]; [discriminate|].
  destruct (last_value k rest) as [w|].
  - intros [= ->]. right. apply IH. reflexivity.
  - destruct (decide (k' = k)) as [->|_]; [|discriminate].
    intros [= ->]. left.
Qed.

Lemma FORMAT_MAP_elem (e : string) (c : str) :
  FORMAT_MAP !! e = Some c -> (e, c) ∈ FORMAT_ITEMS.
Proof.
  unfold FORMAT_MAP. rewrite dict_of_items_lookup. apply last_value_elem.
Qed.

Lemma FORMAT_ITEMS_tag_stable : Forall (fun kv => tag_stable kv = true) FORMAT_ITEMS.
Proof. refine (bool_decide_unpack _ _). vm_compute. exact I. Qed.

Lemma FORMAT_ITEMS_tag_shape : Forall (fun kv => tag_shape kv.2 = true) FORMAT_ITEMS.
Proof. refine (bool_decide_unpack _ _). vm_compute. exact I. Qed.

(** X17: the reverse map may change the extension, never the tag: the
    extension it holds for the tag of a registered extension is registered
    under that same tag. *)
Theorem catalog_tag_stable (e : string) (c : str) :
  FORMAT_MAP !! e = Some c ->
  exists e', REVERSE_FORMAT_MAP !! c = Some e' /\ FORMAT_MAP !! e' = Some c.
Proof.
  intros He. apply FORMAT_MAP_elem in He.
  pose proof (proj1 (Forall_forall _ _) FORMAT_ITEMS_tag_stable _ He) as H.
  unfold tag_stable in H. cbn [snd] in H.
  destruct (REVERSE_FORMAT_MAP !! c) as [e'|]; [|discriminate].
  exists e'. split; [reflexivity|]. apply bool_decide_eq_true in H. exact H.
Qed.

Lemma catalog_tag_stable_witness :
  exists e', REVERSE_FORMAT_MAP !! [0x1F3A8] = Some e' /\ FORMAT_MAP !! e' = Some [0x1F3A8].
Proof. apply (catalog_tag_stable ".png"). reflexivity. Defined.

(** X18: a registered extension whose tag is not one character has a tag
    of two, the second being the variation selector U+FE0F, and no artifact
    written under it can be read: whatever the data, [decode_string] takes
    U+FE0F for the first size character and raises 'Invalid size header
    character'. *)
Theorem two_character_tag_rejected (b : list byte) (e : string) (c : str) :
  FORMAT_MAP !! e = Some c -> length c <> 1%nat ->
  (exists t, c = [t; 0xFE0F])
  /\ (do s <- encode b e; decode_string s) = Err (InvalidSizeHeaderChar 0xFE0F).
Proof.
  intros He Hlen.
  pose proof (proj1 (Forall_forall _ _) FORMAT_ITEMS_tag_shape _ (FORMAT_MAP_elem _ _ He)) as H.
  cbn [snd] in H. destruct c as [|t [|s [|x c]]]; cbn [tag_shape length] in H, Hlen;
    try discriminate; try lia.
  apply Z.eqb_eq in H. subst s. split; [exists t; reflexivity|].
  rewrite encode_spec. unfold lookup_tag. rewrite He. cbn [default].
  destruct (payload_decodes b) as (p & _ & -> & _). cbn [bind].
  rewrite size_header_of_spec. cbn [bind app]. reflexivity.
Qed.

Lemma two_character_tag_rejected_witness :
  (exists t, [0x1F39E; 0xFE0F] = [t; 0xFE0F])
  /\ (do s <- encode [x01; x02; x03] ".avi"; decode_string s)
     = Err (InvalidSizeHeaderChar 0xFE0F).
Proof.
  apply (two_character_tag_rejected [x01; x02; x03] ".avi" [0x1F39E; 0xFE0F]).
  - reflexivity.
  - simpl. lia.
Defined.

(** ** The branches of the encoding step *)

(** X19: the run branches come first.  When the byte at the cursor is
    [0x00] or [0xFF] and at least four such bytes follow one another there,
    the step writes a run token, whatever else the data holds: the marker and
    the count character, for the counted length (at most 4096) clamped to
    4095, and the cursor moves by the counted length. *)
Theorem run_branch_priority (data : list byte) (i : nat) (ones : bool) :
  data !! i = Some (fill_byte ones) ->
  (4 <= leading (fill_byte ones) (drop i data))%nat ->
  encode_step data i
  = Ok ([run_marker ones;
         PRIVATE_USE_START
         + Z.min (Z.of_nat (Nat.min (leading (fill_byte ones) (drop i data)) 4096)) 4095],
        (i + Nat.min (leading (fill_byte ones) (drop i data)) 4096)%nat).
Proof. intros Hi Hrun. exact (encode_step_run data i ones Hi Hrun). Qed.

Lemma run_branch_priority_witness :
  encode_step [x07; xff; xff; xff; xff; xff; x07; x07; x07; x07; x07; x07] 1
  = Ok ([one_run; 0xE005], 6%nat).
Proof.
  apply (run_branch_priority [x07; xff; xff; xff; xff; xff; x07; x07; x07; x07; x07; x07] 1 true).
  - reflexivity.
  - simpl. lia.
Defined.

(** X20: the pattern branch either declines or writes one pattern token
    for the two bytes at the cursor: its count [rc], between 3 and 256, is a
    number of consecutive copies of the motif that the data holds at the
    cursor, and the cursor moves by [2 * rc] bytes. *)
Theorem pattern_branch_counts (data : list byte) (i : nat) (r : option (str * nat)) :
  pattern_branch data i = Ok r ->
  match r with
  | None => True
  | Some (chars, i') =>
      exists p0 p1 rc,
        data !! i = Some p0 /\ data !! (i + 1)%nat = Some p1
        /\ (3 <= rc <= 256)%nat
        /\ take (2 * rc) (drop i data) = concat (replicate rc [p0; p1])
        /\ chars = pattern_token p0 p1 rc /\ i' = (i + rc * 2)%nat
  end.
Proof.
  intros H. destruct (pattern_branch_spec data i) as [Hn|(p0 & p1 & rc & H0 & H1 & Hrc & Htake & Hs)].
  - rewrite Hn in H. injection H as <-. exact I.
  - rewrite Hs in H. injection H as <-. exists p0, p1, rc. auto 10.
Qed.

Lemma pattern_branch_counts_witness :
  exists p0 p1 rc,
    [x0a; x0b; x0a; x0b; x0a; x0b; x0c] !! 0%nat = Some p0
    /\ [x0a; x0b; x0a; x0b; x0a; x0b; x0c] !! 1%nat = Some p1
    /\ (3 <= rc <= 256)%nat
    /\ take (2 * rc) (drop 0 [x0a; x0b; x0a; x0b; x0a; x0b; x0c])
       = concat (replicate rc [p0; p1])
    /\ [repeat_2; 0xE000; 0xEA0B; 0xE003] = pattern_token p0 p1 rc
    /\ 6%nat = (0 + rc * 2)%nat.
Proof.
  apply (pattern_branch_counts [x0a; x0b; x0a; x0b; x0a; x0b; x0c] 0
           (Some ([repeat_2; 0xE000; 0xEA0B; 0xE003], 6%nat))).
  vm_compute. reflexivity.
Defined.

(** ** The two methods with their effects *)











(** The warning comes before the length check: under a tag the stream cannot
    encode, a string of one character makes verbose [decode_string] raise
    [UnicodeEncodeError], not "Encoded data too short". *)
Lemma unknown_tag_warning_raises_first :
  Effects.decode_string true utf8_print [0xD800] = Err UnicodeEncodeError
  /\ Effects.decode_string false utf8_print [0xD800] = Err EncodedDataTooShort.
Proof. split; vm_compute; reflexivity. Qed.
